(** * QSignalInspector: recording the signal emissions of an object

    A shallow embedding of [QSignalInspector.hpp].  The inspector owns a
    table [m_signalSpies] of one [QSignalSpy] per discovered signal and is
    itself the list of recorded [QSignalEmissionEvent]s; its private slot
    [signalEmitted] is connected to every discovered signal.

    The Qt primitives the header relies on ([QMetaObject], [QSignalSpy],
    [QObject::connect], signal activation) are not part of the header; they
    are modelled in the sections "Host primitives" from their documented
    behaviour, as far as the header uses them.  The delivery of an emission
    is given twice: [emit], to the receivers connected under one method
    index, which is all there is to the emission of a signal without default
    arguments, and [emitWithClones], which also reaches the connections made
    on the clones of a signal with default arguments and comes to one [emit]
    for each discovered method of the signal. *)

From Equations Require Import Equations.
From stdpp Require Import gmap strings list fin_maps.

Open Scope string_scope.
Open Scope list_scope.

(** ** Host primitives: meta-objects *)

(** [QMetaMethod::MethodType]. *)
Inductive MethodType := Method | Signal | Slot | Constructor.

Global Instance MethodType_eq_dec : EqDecision MethodType.
Proof. solve_decision. Defined.

(** The argument types a signal can carry, and the [QVariant]s a spy stores
    for them. *)
Inductive QMetaTypeId := TBool | TInt | TQString | TQObjectStar | TVoidStar.

Global Instance QMetaTypeId_eq_dec : EqDecision QMetaTypeId.
Proof. solve_decision. Defined.

Inductive QVariant :=
| VBool (b : bool)
| VInt (i : Z)
| VQString (s : string)
| VQObjectStar (address : N)
| VVoidStar (address : N).

Definition userType (v : QVariant) : QMetaTypeId :=
  match v with
  | VBool _ => TBool
  | VInt _ => TInt
  | VQString _ => TQString
  | VQObjectStar _ => TQObjectStar
  | VVoidStar _ => TVoidStar
  end.

(** What the header reads of a [QMetaMethod]: its kind and its signature,
    the latter together with the formal parameter list it denotes.  [cloned]
    is the attribute [QMetaMethod::Cloned], which the header does not read
    but Qt does when a connection is made: for a method declared with default
    arguments the meta-object holds, right after the method with all its
    parameters, one clone for each shorter parameter list. *)
Record QMetaMethod := {
  methodType : MethodType;
  methodSignature : string;
  parameterTypes : list QMetaTypeId;
  cloned : bool
}.

(** The default-constructed (invalid) [QMetaMethod], which
    [QMetaObject::method] returns for an index out of range; its
    [methodType()] is [Method]. *)
Definition invalidMethod : QMetaMethod :=
  {| methodType := Method; methodSignature := ""; parameterTypes := [];
     cloned := false |}.

(** A meta-object is a chain: the methods the class itself declares, and
    the meta-object of its super class.  Method indices are [int]s in the
    header; they range over [0 .. methodCount()], far from the bounds of
    [int], and are natural numbers here. *)
#[warnings="-register-all"]
Inductive QMetaObject :=
| MetaObject (superClass : option QMetaObject) (ownMethods : list QMetaMethod).

Definition superClass (mo : QMetaObject) : option QMetaObject :=
  let 'MetaObject s _ := mo in s.

Definition ownMethods (mo : QMetaObject) : list QMetaMethod :=
  let 'MetaObject _ ms := mo in ms.

(** All methods in enumeration order: those of the ancestors first. *)
Fixpoint allMethods (mo : QMetaObject) : list QMetaMethod :=
  match mo with
  | MetaObject None ms => ms
  | MetaObject (Some super) ms => allMethods super ++ ms
  end.

Definition inheritedMethods (mo : QMetaObject) : list QMetaMethod :=
  match superClass mo with
  | None => []
  | Some super => allMethods super
  end.

Definition methodOffset (mo : QMetaObject) : nat := length (inheritedMethods mo).

Definition methodCount (mo : QMetaObject) : nat := length (allMethods mo).

Definition method (mo : QMetaObject) (index : nat) : QMetaMethod :=
  default invalidMethod (allMethods mo !! index).

Definition isSignal (m : QMetaMethod) : bool :=
  bool_decide (methodType m = Signal).

(** ** The inspector and the state around it *)

(** [QDateTime], as milliseconds since the epoch. *)
Abbreviation QDateTime := Z.

(** [struct QSignalEmissionEvent]. *)
Record QSignalEmissionEvent := {
  signal : QMetaMethod;
  timestamp : QDateTime;
  parameters : list QVariant
}.

(** A [QSignalSpy] is the list of the argument lists it has caught;
    [count()] is its length and [clear()] empties it. *)
Abbreviation QSignalSpy := (list (list QVariant)).

(** A [QSharedPointer<QSignalSpy>].  Every spy is allocated once, by the
    constructor, and stored under one key of [m_signalSpies], which is never
    modified afterwards; a spy is therefore addressed by that key.  [None]
    is the null pointer. *)
Abbreviation QSharedPointer := (option nat).

(** What a connection of the inspected object leads to: the slot of the spy
    stored under a key, or the inspector's [signalEmitted()] slot. *)
Inductive Receiver :=
| SpyReceiver (key : nat)
| SignalEmittedSlot.

Global Instance Receiver_eq_dec : EqDecision Receiver.
Proof. solve_decision. Defined.

(** The inspector ([log] is its [QList<QSignalEmissionEvent>] base,
    [m_signalSpies] its private table), the connections of the inspected
    object in the order they were made, and what [qWarning] has printed. *)
Record State := {
  log : list QSignalEmissionEvent;
  m_signalSpies : gmap nat QSignalSpy;
  connections : list (nat * Receiver);
  diagnostics : list string
}.

(** How a call ends: it returns, or the process is stopped. *)
Inductive Fault :=
| AssertSender      (* Q_ASSERT_X(sender, ...) failed *)
| NullSender        (* sender->metaObject() on a null sender *)
| NullSpy           (* a null QSharedPointer was dereferenced *)
| AtOutOfRange.     (* QList::at(0) on an empty list *)

Inductive Outcome :=
| Returned (st : State)
| Aborted (f : Fault).

(** ** The constructor *)

(** The body of the [if] in the constructor's loop: a new spy on the signal,
    stored under the method index, then the connection of the signal to
    [signalEmitted()].  The spy connects itself to the signal when it is
    constructed, so its connection comes first. *)
Definition observe (methodIndex : nat) (st : State) : State :=
  {| log := log st;
     m_signalSpies := <[methodIndex := []]> (m_signalSpies st);
     connections := connections st ++
       [(methodIndex, SpyReceiver methodIndex); (methodIndex, SignalEmittedSlot)];
     diagnostics := diagnostics st |}.

(** [for (; methodIndex < metaObject->methodCount(); ++methodIndex)]. *)
Equations? discover (metaObject : QMetaObject) (methodIndex : nat) (st : State)
  : State by wf (methodCount metaObject - methodIndex) lt :=
  discover metaObject methodIndex st
    with decide (methodIndex < methodCount metaObject) := {
    | left _ =>
        discover metaObject (S methodIndex)
          (if isSignal (method metaObject methodIndex)
           then observe methodIndex st else st)
    | right _ => st }.
Proof. lia. Qed.

Definition newInspector : State :=
  {| log := []; m_signalSpies := ∅; connections := []; diagnostics := [] |}.

(** [QSignalInspector(const QObject* object, bool includeParentClassSignals)];
    the object is given by its meta-object. *)
Definition QSignalInspector_ctor (object : QMetaObject)
    (includeParentClassSignals : bool) : State :=
  let metaObject := object in
  let methodIndex :=
    if includeParentClassSignals then 0 else methodOffset metaObject in
  discover metaObject methodIndex newInspector.

(** ** The slot [signalEmitted()] *)

Definition unexpectedSignal : string :=
  "QSignalInspector: Unexpected signal emitted".

(** How the selection loop is left: by the [return] after the warning, or
    (by [break] or because the condition failed) with the values of
    [signalIndex] and [signalSpy] at that point. *)
Inductive LoopExit :=
| ReturnUnexpected
| Leave (signalIndex : nat) (signalSpy : QSharedPointer).

(** [for (; signalIndex < metaObject->methodCount(); ++signalIndex)].
    [m_signalSpies.value(signalIndex)] is the pointer stored under the key,
    or a null pointer when the key is missing. *)
Equations? select (metaObject : QMetaObject) (spies : gmap nat QSignalSpy)
    (signalIndex : nat) (signalSpy : QSharedPointer)
  : LoopExit by wf (methodCount metaObject - signalIndex) lt :=
  select metaObject spies signalIndex signalSpy
    with decide (signalIndex < methodCount metaObject) := {
    | left _ =>
        if negb (isSignal (method metaObject signalIndex))
        then select metaObject spies (S signalIndex) signalSpy
        else
          match spies !! signalIndex with
          | None => ReturnUnexpected
          | Some spy =>
              if bool_decide (0 < length spy)
              then Leave signalIndex (Some signalIndex)
              else select metaObject spies (S signalIndex) (Some signalIndex)
          end
    | right _ => Leave signalIndex signalSpy }.
Proof. all: lia. Qed.

Definition warn (msg : string) (st : State) : State :=
  {| log := log st;
     m_signalSpies := m_signalSpies st;
     connections := connections st;
     diagnostics := diagnostics st ++ [msg] |}.

(** [this->append(event); signalSpy->clear();] with [signalSpy] pointing to
    the spy stored under [key]. *)
Definition record (event : QSignalEmissionEvent) (key : nat) (st : State) : State :=
  {| log := log st ++ [event];
     m_signalSpies := <[key := []]> (m_signalSpies st);
     connections := connections st;
     diagnostics := diagnostics st |}.

(** The two builds of the header: [QT_NO_DEBUG] is defined in a release
    build and not in a debug build.  [Q_ASSERT_X] expands to its check in the
    latter and to nothing in the former. *)
Definition debugBuild : bool := false.
Definition releaseBuild : bool := true.

Section Build.

Variable QT_NO_DEBUG : bool.

(** [void signalEmitted()].  [sender] is what [this->sender()] returns, an
    object being given by its meta-object; [now] is what
    [QDateTime::currentDateTime()] returns.  Without a sender the assertion
    stops a debug build; a release build has no assertion and goes on to
    [sender->metaObject()], through the null pointer. *)
Definition signalEmitted (sender : option QMetaObject) (now : QDateTime)
    (st : State) : Outcome :=
  match sender with
  | None => if QT_NO_DEBUG then Aborted NullSender else Aborted AssertSender
  | Some metaObject =>
      match select metaObject (m_signalSpies st) 0 None with
      | ReturnUnexpected => Returned (warn unexpectedSignal st)
      | Leave signalIndex signalSpy =>
          match signalSpy with
          | None => Aborted NullSpy
          | Some key =>
              match m_signalSpies st !! key with
              | None => Aborted NullSpy
              | Some [] => Aborted AtOutOfRange
              | Some (signalParameters :: _) =>
                  Returned (record
                    {| signal := method metaObject signalIndex;
                       timestamp := now;
                       parameters := signalParameters |} key st)
              end
          end
      end
  end.

(** ** Host primitives: emitting a signal *)

(** The receivers connected to a signal, in connection order. *)
Definition receivers (signalIndex : nat) (cs : list (nat * Receiver))
  : list Receiver :=
  snd <$> filter (λ c, c.1 = signalIndex) cs.

(** The slot of a spy appends the arguments of the emission. *)
Definition caught (key : nat) (args : list QVariant) (st : State) : State :=
  {| log := log st;
     m_signalSpies := alter (λ spy, spy ++ [args]) key (m_signalSpies st);
     connections := connections st;
     diagnostics := diagnostics st |}.

(** Direct (synchronous) delivery of one emission to the connected
    receivers, one after the other; each spy catches [args]. *)
Fixpoint activate (object : QMetaObject) (args : list QVariant)
    (now : QDateTime) (rs : list Receiver) (st : State) : Outcome :=
  match rs with
  | [] => Returned st
  | SpyReceiver key :: rs' => activate object args now rs' (caught key args st)
  | SignalEmittedSlot :: rs' =>
      match signalEmitted (Some object) now st with
      | Returned st' => activate object args now rs' st'
      | Aborted f => Aborted f
      end
  end.

(** The emission of a signal that reaches the connections made on its own
    method index, and these only: any signal declared without default
    arguments.  [Firing] below covers the signals that have clones. *)
Record Emission := {
  emittedSignal : nat;
  arguments : list QVariant;
  emittedAt : QDateTime
}.

Definition emit (object : QMetaObject) (e : Emission) (st : State) : Outcome :=
  activate object (arguments e) (emittedAt e)
    (receivers (emittedSignal e) (connections st)) st.

(** A sequence of emissions on one thread, each delivered before the next. *)
Fixpoint run (object : QMetaObject) (es : list Emission) (st : State) : Outcome :=
  match es with
  | [] => Returned st
  | e :: es' =>
      match emit object e st with
      | Returned st' => run object es' st'
      | Aborted f => Aborted f
      end
  end.

(** ** Host primitives: signals with default arguments *)

(** [QMetaObjectPrivate::originalClone]: a connection made on a clone is
    attached to the method it was cloned from, found by stepping back over
    the clones among the methods the class declares.  ([moc] never makes the
    first method of a class a clone; the walk stops there.) *)
Fixpoint originalLocal (ms : list QMetaMethod) (local : nat) : nat :=
  match local with
  | 0 => 0
  | S previous =>
      if cloned (default invalidMethod (ms !! S previous))
      then originalLocal ms previous
      else S previous
  end.

Fixpoint originalClone (mo : QMetaObject) (index : nat) : nat :=
  match mo with
  | MetaObject None ms => originalLocal ms index
  | MetaObject (Some super) ms =>
      if decide (index < methodCount super)
      then originalClone super index
      else methodCount super + originalLocal ms (index - methodCount super)
  end.

(** The receivers an emission of the signal [signalIndex] reaches, in
    connection order: those connected to it and those connected to its
    clones. *)
Definition reached (mo : QMetaObject) (signalIndex : nat)
    (cs : list (nat * Receiver)) : list Receiver :=
  snd <$> filter (λ c, originalClone mo c.1 = signalIndex) cs.

(** A spy stores as many of the arguments of an emission as the method it
    was constructed on has parameters: all of them for the signal itself,
    the first ones for a clone. *)
Definition spyArguments (mo : QMetaObject) (key : nat) (args : list QVariant)
  : list QVariant :=
  take (length (parameterTypes (method mo key))) args.

(** One emission of a signal by the object: the index of the signal (never
    that of a clone: a call with fewer arguments emits the signal itself,
    with the defaults filled in), the arguments, and what
    [QDateTime::currentDateTime()] returns in the first, second, ...
    invocation of the slot that the emission causes. *)
Record Firing := {
  firedSignal : nat;
  firedArguments : list QVariant;
  readings : nat -> QDateTime
}.

(** Direct delivery to the receivers reached, one after the other; [calls]
    counts the invocations of the slot made so far. *)
Fixpoint activateWithClones (object : QMetaObject) (args : list QVariant)
    (clock : nat -> QDateTime) (calls : nat) (rs : list Receiver) (st : State)
  : Outcome :=
  match rs with
  | [] => Returned st
  | SpyReceiver key :: rs' =>
      activateWithClones object args clock calls rs'
        (caught key (spyArguments object key args) st)
  | SignalEmittedSlot :: rs' =>
      match signalEmitted (Some object) (clock calls) st with
      | Returned st' => activateWithClones object args clock (S calls) rs' st'
      | Aborted f => Aborted f
      end
  end.

Definition emitWithClones (object : QMetaObject) (f : Firing) (st : State)
  : Outcome :=
  activateWithClones object (firedArguments f) (readings f) 0
    (reached object (firedSignal f) (connections st)) st.

Fixpoint runWithClones (object : QMetaObject) (fs : list Firing) (st : State)
  : Outcome :=
  match fs with
  | [] => Returned st
  | f :: fs' =>
      match emitWithClones object f st with
      | Returned st' => runWithClones object fs' st'
      | Aborted fault => Aborted fault
      end
  end.

(** ** Example meta-objects *)

(** The methods of [QObject] itself: three signals and two slots.  The
    signal [destroyed(QObject* = nullptr)] gives two methods, the second a
    clone. *)
Definition qobjectMeta : QMetaObject :=
  MetaObject None
    [ {| methodType := Signal; methodSignature := "destroyed(QObject*)";
         parameterTypes := [TQObjectStar]; cloned := false |};
      {| methodType := Signal; methodSignature := "destroyed()";
         parameterTypes := []; cloned := true |};
      {| methodType := Signal; methodSignature := "objectNameChanged(QString)";
         parameterTypes := [TQString]; cloned := false |};
      {| methodType := Slot; methodSignature := "deleteLater()";
         parameterTypes := []; cloned := false |};
      {| methodType := Slot; methodSignature := "_q_reregisterTimers(void*)";
         parameterTypes := [TVoidStar]; cloned := false |} ].

(** A door, a direct subclass of [QObject], with the signals [opened()]
    and [closed(QString)] and a slot between them. *)
Definition doorMeta : QMetaObject :=
  MetaObject (Some qobjectMeta)
    [ {| methodType := Signal; methodSignature := "opened()";
         parameterTypes := []; cloned := false |};
      {| methodType := Slot; methodSignature := "lock()";
         parameterTypes := []; cloned := false |};
      {| methodType := Signal; methodSignature := "closed(QString)";
         parameterTypes := [TQString]; cloned := false |} ].

(** The method indices of the two signals of the door. *)
Definition openedSignal : nat := 5.
Definition closedSignal : nat := 7.

(** The door is opened, then closes on a timeout. *)
Definition doorEmissions : list Emission :=
  [ {| emittedSignal := openedSignal; arguments := []; emittedAt := 1000%Z |};
    {| emittedSignal := closedSignal; arguments := [VQString "timeout"];
       emittedAt := 1001%Z |} ].

(** * Vocabulary of the properties *)

(** No signal with an index in [[from, to)] stops the loop: each has a spy,
    and that spy has caught nothing since it was last cleared. *)
Definition quiet (mo : QMetaObject) (spies : gmap nat QSignalSpy)
    (from to : nat) : Prop :=
  forall j, from <= j < to -> methodType (method mo j) = Signal -> spies !! j = Some [].

(** The spy stored under [k] reports a non-zero count. *)
Definition pending (spies : gmap nat QSignalSpy) (k : nat) : Prop :=
  exists spy, spies !! k = Some spy /\ 0 < length spy.

(** The three ways the loop ends, from index [i] with [signalSpy = p]. *)
Definition select_post (mo : QMetaObject) (spies : gmap nat QSignalSpy)
    (i : nat) (p : QSharedPointer) (r : LoopExit) : Prop :=
  match r with
  | ReturnUnexpected =>
      exists k, i <= k < methodCount mo /\ methodType (method mo k) = Signal /\
                spies !! k = None /\ quiet mo spies i k
  | Leave k q =>
      i <= k /\ quiet mo spies i k /\
      ((k < methodCount mo /\ methodType (method mo k) = Signal /\
        q = Some k /\ pending spies k)
       \/ (k = methodCount mo /\
           ((q = p /\
             forall j, i <= j < k -> methodType (method mo j) <> Signal)
            \/ exists j, i <= j < k /\ methodType (method mo j) = Signal /\
                         q = Some j)))
  end.

(** The three ways an invocation with a sender ends.  [k] is the first
    signal, in enumeration order, whose spy is missing or has caught
    something. *)
Inductive handled (mo : QMetaObject) (now : QDateTime) (st : State)
  : Outcome -> Prop :=
| handled_unexpected k :
    k < methodCount mo -> methodType (method mo k) = Signal ->
    m_signalSpies st !! k = None ->
    quiet mo (m_signalSpies st) 0 k ->
    handled mo now st (Returned (warn unexpectedSignal st))
| handled_recorded k args rest :
    k < methodCount mo -> methodType (method mo k) = Signal ->
    m_signalSpies st !! k = Some (args :: rest) ->
    quiet mo (m_signalSpies st) 0 k ->
    handled mo now st
      (Returned (record {| signal := method mo k; timestamp := now;
                           parameters := args |} k st))
| handled_no_signal :
    (forall j, methodType (method mo j) <> Signal) ->
    handled mo now st (Aborted NullSpy)
| handled_exhausted j :
    methodType (method mo j) = Signal ->
    quiet mo (m_signalSpies st) 0 (methodCount mo) ->
    handled mo now st (Aborted AtOutOfRange).

Definition firstIndex (mo : QMetaObject) (includeParentClassSignals : bool) : nat :=
  if includeParentClassSignals then 0 else methodOffset mo.

(** The signals with an index in [[i, methodCount mo)], in increasing order. *)
Definition signalsFrom (mo : QMetaObject) (i : nat) : list nat :=
  filter (λ k, methodType (method mo k) = Signal) (seq i (methodCount mo - i)).

Definition discovered (mo : QMetaObject) (includeParentClassSignals : bool)
  : list nat :=
  signalsFrom mo (firstIndex mo includeParentClassSignals).

(** The two connections made for a discovered signal. *)
Definition wiring (k : nat) : list (nat * Receiver) :=
  [(k, SpyReceiver k); (k, SignalEmittedSlot)].

(** Neither the keys of the table nor the connections change after the
    constructor has run: a state of an inspector constructed on [mo] has
    one spy for every discovered signal and no other, and the connections
    the constructor made. *)
Definition inspecting (mo : QMetaObject) (b : bool) (st : State) : Prop :=
  (forall k, is_Some (m_signalSpies st !! k) <-> k ∈ discovered mo b) /\
  connections st = discovered mo b ≫= wiring.

Definition declaredSignals (ms : list QMetaMethod) : nat :=
  length (filter (λ m, methodType m = Signal) ms).

(** [signalSpy->count()] for the spy stored under a key; a missing spy has
    caught nothing. *)
Definition count (spies : gmap nat QSignalSpy) (key : nat) : nat :=
  match spies !! key with
  | Some spy => length spy
  | None => 0
  end.

(** The selection rule in the words of the specification: the first method
    index, counting from 0, that is a signal and whose spy reports a
    non-zero count; methods that are not signals are passed over. *)
Definition firstPending (mo : QMetaObject) (spies : gmap nat QSignalSpy)
  : option nat :=
  List.find (λ k, isSignal (method mo k) && bool_decide (0 < count spies k))
            (seq 0 (methodCount mo)).

(** A state in which the inspector of a door, constructed with the signals
    of the parent classes, is about to be told that [opened()] was emitted:
    the spy of [opened()] has caught the emission. *)
Definition doorOpened : State :=
  caught openedSignal [] (QSignalInspector_ctor doorMeta true).

(** The same for an inspector constructed without the signals of the parent
    classes. *)
Definition doorOpenedOwnOnly : State :=
  caught openedSignal [] (QSignalInspector_ctor doorMeta false).

(** The record of that emission, and the state once the slot has run. *)
Definition openedEvent : QSignalEmissionEvent :=
  {| signal := method doorMeta openedSignal; timestamp := 1000%Z;
     parameters := [] |}.

Definition doorOpenedRecorded : State :=
  record openedEvent openedSignal doorOpened.

(** The record an emission should leave in the log. *)
Definition eventOf (mo : QMetaObject) (e : Emission) : QSignalEmissionEvent :=
  {| signal := method mo (emittedSignal e);
     timestamp := emittedAt e;
     parameters := arguments e |}.

(** Every spy in the table has been cleared since it last caught something. *)
Definition idle (st : State) : Prop :=
  forall k spy, m_signalSpies st !! k = Some spy -> spy = [].

(** An emission passes arguments of the types the signal declares. *)
Definition wellTyped (mo : QMetaObject) (e : Emission) : Prop :=
  userType <$> arguments e = parameterTypes (method mo (emittedSignal e)).

(** The parameters of a record have the length and the types of the formal
    parameters of the signal stored in it. *)
Definition matchesSignature (ev : QSignalEmissionEvent) : Prop :=
  userType <$> parameters ev = parameterTypes (signal ev).

(** Every argument list a spy holds has the types of the signal under whose
    index the spy is stored. *)
Definition spiesTyped (mo : QMetaObject) (st : State) : Prop :=
  forall k spy args,
    m_signalSpies st !! k = Some spy -> args ∈ spy ->
    userType <$> args = parameterTypes (method mo k).

(** The emissions of a sequence that reach the inspector: those of a
    discovered signal. *)
Definition delivered (mo : QMetaObject) (b : bool) (es : list Emission)
  : list Emission :=
  filter (λ e, emittedSignal e ∈ discovered mo b) es.

(** The argument lists of the emissions of signal [k], in order. *)
Definition argumentsOf (k : nat) (es : list Emission) : list (list QVariant) :=
  arguments <$> filter (λ e, emittedSignal e = k) es.

(** A latch, a subclass of [QObject] that declares a slot and no signal. *)
Definition latchMeta : QMetaObject :=
  MetaObject (Some qobjectMeta)
    [ {| methodType := Slot; methodSignature := "release()";
         parameterTypes := []; cloned := false |} ].

(** The discovered methods that an emission of the signal [s] reaches: [s]
    itself and its clones, as far as the constructor discovered them, in
    the order of their indices. *)
Definition family (mo : QMetaObject) (b : bool) (s : nat) : list nat :=
  filter (λ k, originalClone mo k = s) (discovered mo b).

(** What one emission comes to, method by method: for each discovered
    method of the family, in order, the spy of that method catches its share
    of the arguments and the slot is invoked, reading the clock anew. *)
Definition perMethod (mo : QMetaObject) (b : bool) (f : Firing) : list Emission :=
  imap (λ j k, {| emittedSignal := k;
                  arguments := spyArguments mo k (firedArguments f);
                  emittedAt := readings f j |})
       (family mo b (firedSignal f)).

(** The signal fired has no clone among the discovered methods and is
    emitted with as many arguments as it has parameters. *)
Definition withoutClones (mo : QMetaObject) (b : bool) (f : Firing) : Prop :=
  family mo b (firedSignal f) = [firedSignal f] /\
  length (firedArguments f) = length (parameterTypes (method mo (firedSignal f))).

(** The record a signal without clones should leave in the log. *)
Definition eventOfFiring (mo : QMetaObject) (f : Firing) : QSignalEmissionEvent :=
  {| signal := method mo (firedSignal f);
     timestamp := readings f 0;
     parameters := firedArguments f |}.

(** A button in the manner of [QAbstractButton]: [clicked(bool checked =
    false)] gives the signal [clicked(bool)] and its clone [clicked()]. *)
Definition buttonMeta : QMetaObject :=
  MetaObject (Some qobjectMeta)
    [ {| methodType := Signal; methodSignature := "pressed()";
         parameterTypes := []; cloned := false |};
      {| methodType := Signal; methodSignature := "clicked(bool)";
         parameterTypes := [TBool]; cloned := false |};
      {| methodType := Signal; methodSignature := "clicked()";
         parameterTypes := []; cloned := true |};
      {| methodType := Signal; methodSignature := "toggled(bool)";
         parameterTypes := [TBool]; cloned := false |} ].

Definition pressedSignal : nat := 5.
Definition clickedSignal : nat := 6.

(** The button is pressed, then clicked; the clock advances by one
    millisecond from one invocation of the slot to the next. *)
Definition buttonFirings : list Firing :=
  [ {| firedSignal := pressedSignal; firedArguments := [];
       readings := λ j, (2000 + Z.of_nat j)%Z |};
    {| firedSignal := clickedSignal; firedArguments := [VBool true];
       readings := λ j, (3000 + Z.of_nat j)%Z |} ].

(** The number of invocations of the slot a sequence of emissions causes:
    one for every discovered method of the family of each emitted signal. *)
Definition slotCalls (mo : QMetaObject) (b : bool) (fs : list Firing) : nat :=
  sum_list_with (λ f, length (family mo b (firedSignal f))) fs.

(** What the spy stored under [k] catches of a sequence of emissions: its
    share of the arguments of every emission of the signal that the method
    [k] is, or is a clone of. *)
Definition caughtBy (mo : QMetaObject) (k : nat) (fs : list Firing)
  : list (list QVariant) :=
  (λ f, spyArguments mo k (firedArguments f))
    <$> filter (λ f, firedSignal f = originalClone mo k) fs.

(** The clock readings taken by the invocations of the slot, in order. *)
Definition clockReadings (mo : QMetaObject) (b : bool) (fs : list Firing)
  : list QDateTime :=
  fs ≫= (λ f, readings f <$> seq 0 (length (family mo b (firedSignal f)))).

(** * Properties *)

(** ** Meta-objects *)

Lemma allMethods_split mo : allMethods mo = inheritedMethods mo ++ ownMethods mo.
Proof. destruct mo as [[super|] ms]; reflexivity. Qed.

Lemma methodCount_split mo :
  methodCount mo = methodOffset mo + length (ownMethods mo).
Proof.
  unfold methodCount, methodOffset. rewrite allMethods_split.
  apply length_app.
Qed.

Lemma methodOffset_le mo : methodOffset mo <= methodCount mo.
Proof. rewrite methodCount_split. lia. Qed.

Lemma method_out_of_range mo i : methodCount mo <= i -> method mo i = invalidMethod.
Proof.
  intros Hi. unfold method.
  rewrite (proj2 (lookup_ge_None (allMethods mo) i)); [reflexivity | exact Hi].
Qed.

Lemma isSignal_true m : isSignal m = true <-> methodType m = Signal.
Proof. unfold isSignal. apply bool_decide_eq_true. Qed.

Lemma isSignal_false m : isSignal m = false <-> methodType m <> Signal.
Proof. unfold isSignal. apply bool_decide_eq_false. Qed.

Lemma signal_in_range mo i :
  methodType (method mo i) = Signal -> i < methodCount mo.
Proof.
  intros H. destruct (decide (i < methodCount mo)) as [|Hge]; [assumption|].
  rewrite method_out_of_range in H by lia. discriminate.
Qed.

(** ** The loops, one iteration at a time *)

Lemma discover_step mo i st :
  discover mo i st =
  if decide (i < methodCount mo)
  then discover mo (S i) (if isSignal (method mo i) then observe i st else st)
  else st.
Proof.
  rewrite discover_equation_1.
  destruct (decide (i < methodCount mo)); reflexivity.
Qed.

Lemma select_step mo spies i p :
  select mo spies i p =
  if decide (i < methodCount mo)
  then
    if negb (isSignal (method mo i)) then select mo spies (S i) p
    else match spies !! i with
         | None => ReturnUnexpected
         | Some spy =>
             if bool_decide (0 < length spy) then Leave i (Some i)
             else select mo spies (S i) (Some i)
         end
  else Leave i p.
Proof.
  rewrite select_equation_1.
  destruct (decide (i < methodCount mo)); reflexivity.
Qed.

(** ** What the selection loop finds *)

Lemma quiet_empty mo spies i : quiet mo spies i i.
Proof. intros j Hj. lia. Qed.

Lemma quiet_grow mo spies i k :
  (methodType (method mo i) = Signal -> spies !! i = Some []) ->
  quiet mo spies (S i) k -> quiet mo spies i k.
Proof.
  intros Hi Hq j Hj Hs.
  destruct (decide (j = i)) as [->|Hne]; [auto|]. apply Hq; [lia | assumption].
Qed.

Lemma select_post_holds mo spies n : forall i p,
  n = methodCount mo - i -> i <= methodCount mo ->
  select_post mo spies i p (select mo spies i p).
Proof.
  induction n as [|n IH]; intros i p Hn Hi; rewrite select_step.
  - destruct (decide (i < methodCount mo)) as [Hlt|Hge]; [lia|].
    simpl. split; [lia|]. split; [apply quiet_empty|].
    right. split; [lia|]. left. split; [reflexivity | intros j Hj; lia].
  - destruct (decide (i < methodCount mo)) as [Hlt|Hge]; [|lia].
    destruct (isSignal (method mo i)) eqn:Hsig; simpl;
      [apply isSignal_true in Hsig | apply isSignal_false in Hsig].
    + destruct (spies !! i) as [spy|] eqn:Hspy.
      * destruct (bool_decide (0 < length spy)) eqn:Hcount.
        -- apply bool_decide_eq_true in Hcount. simpl.
           split; [lia|]. split; [apply quiet_empty|].
           left. repeat split; [assumption..|]. exists spy. auto.
        -- apply bool_decide_eq_false in Hcount.
           assert (spy = []) as -> by (destruct spy; simpl in *; [reflexivity | lia]).
           specialize (IH (S i) (Some i) ltac:(lia) ltac:(lia)).
           destruct (select mo spies (S i) (Some i)) as [|k q]; simpl in *.
           ++ destruct IH as (k & Hk & Hks & Hnone & Hq).
              exists k. repeat split; [lia | lia | assumption..|].
              apply quiet_grow; auto.
           ++ destruct IH as (Hk & Hq & Hcase).
              split; [lia|]. split; [apply quiet_grow; auto|].
              destruct Hcase as [Hfound | [Hend Hptr]]; [left; assumption|].
              right. split; [assumption|]. right.
              destruct Hptr as [[-> _] | (j & Hj & Hjs & ->)].
              ** exists i. repeat split; [lia | lia | assumption].
              ** exists j. repeat split; [lia | lia | assumption].
      * simpl. exists i. repeat split; [lia | assumption.. | apply quiet_empty].
    + specialize (IH (S i) p ltac:(lia) ltac:(lia)).
      destruct (select mo spies (S i) p) as [|k q]; simpl in *.
      * destruct IH as (k & Hk & Hks & Hnone & Hq).
        exists k. repeat split; [lia | lia | assumption..|].
        apply quiet_grow; [congruence | assumption].
      * destruct IH as (Hk & Hq & Hcase).
        split; [lia|]. split; [apply quiet_grow; [congruence | assumption]|].
        destruct Hcase as [Hfound | [Hend Hptr]]; [left; assumption|].
        right. split; [assumption|].
        destruct Hptr as [[-> Hnone] | (j & Hj & Hjs & ->)].
        { left. split; [reflexivity|]. intros j Hj.
          destruct (decide (j = i)) as [->|Hne]; [assumption|].
          apply Hnone. lia. }
        right. exists j. repeat split; [lia | lia | assumption].
Qed.

(** ** What the slot does *)

Lemma signalEmitted_handled mo now st :
  handled mo now st (signalEmitted (Some mo) now st).
Proof.
  unfold signalEmitted.
  pose proof (select_post_holds mo (m_signalSpies st) _ 0 None eq_refl
                ltac:(lia)) as Hpost.
  destruct (select mo (m_signalSpies st) 0 None) as [|k q]; simpl in Hpost.
  - destruct Hpost as (k & Hk & Hsig & Hnone & Hq).
    eapply handled_unexpected; eauto; lia.
  - destruct Hpost as (_ & Hq & [(Hk & Hsig & -> & spy & Hspy & Hlen)
                               | (-> & [[-> Hnone] | (j & Hj & Hsig & ->)])]).
    + rewrite Hspy. destruct spy as [|args rest]; [simpl in Hlen; lia|].
      eapply handled_recorded; eauto.
    + apply handled_no_signal. intros j Hsig.
      apply (Hnone j); [|assumption].
      pose proof (signal_in_range mo j Hsig). lia.
    + rewrite (Hq j Hj Hsig). eapply handled_exhausted; eauto.
Qed.

(** The signal at which the loop stops is determined by the table. *)
Lemma first_stop_unique mo spies k1 k2 :
  methodType (method mo k1) = Signal -> methodType (method mo k2) = Signal ->
  spies !! k1 <> Some [] -> spies !! k2 <> Some [] ->
  quiet mo spies 0 k1 -> quiet mo spies 0 k2 -> k1 = k2.
Proof.
  intros Hs1 Hs2 Hn1 Hn2 Hq1 Hq2.
  destruct (lt_eq_lt_dec k1 k2) as [[Hlt| ->]|Hlt]; [|reflexivity|].
  - exfalso. apply Hn1, Hq2; [lia | assumption].
  - exfalso. apply Hn2, Hq1; [lia | assumption].
Qed.

Lemma signalEmitted_unexpected mo now st k :
  methodType (method mo k) = Signal ->
  m_signalSpies st !! k = None ->
  quiet mo (m_signalSpies st) 0 k ->
  signalEmitted (Some mo) now st = Returned (warn unexpectedSignal st).
Proof.
  intros Hsig Hnone Hq.
  destruct (signalEmitted_handled mo now st)
    as [k' _ Hsig' Hnone' Hq' | k' args rest _ Hsig' Hspy' Hq' | Hno | j Hj Hall].
  - reflexivity.
  - assert (k = k') as ->
      by (apply (first_stop_unique mo (m_signalSpies st));
          first [assumption | congruence]).
    congruence.
  - destruct (Hno k Hsig).
  - pose proof (signal_in_range mo k Hsig) as Hk.
    rewrite (Hall k) in Hnone; [discriminate | lia | assumption].
Qed.

Lemma signalEmitted_records mo now st k args rest :
  methodType (method mo k) = Signal ->
  m_signalSpies st !! k = Some (args :: rest) ->
  quiet mo (m_signalSpies st) 0 k ->
  signalEmitted (Some mo) now st =
  Returned (record {| signal := method mo k; timestamp := now;
                      parameters := args |} k st).
Proof.
  intros Hsig Hspy Hq.
  destruct (signalEmitted_handled mo now st)
    as [k' _ Hsig' Hnone' Hq' | k' args' rest' _ Hsig' Hspy' Hq' | Hno | j Hj Hall].
  - assert (k = k') as ->
      by (apply (first_stop_unique mo (m_signalSpies st));
          first [assumption | congruence]).
    congruence.
  - assert (k = k') as ->
      by (apply (first_stop_unique mo (m_signalSpies st));
          first [assumption | congruence]).
    rewrite Hspy in Hspy'. injection Hspy' as <- <-. reflexivity.
  - destruct (Hno k Hsig).
  - pose proof (signal_in_range mo k Hsig) as Hk.
    rewrite (Hall k) in Hspy; [discriminate | lia | assumption].
Qed.

Lemma signalEmitted_exhausted mo now st :
  quiet mo (m_signalSpies st) 0 (methodCount mo) ->
  signalEmitted (Some mo) now st = Aborted NullSpy /\
    (forall j, methodType (method mo j) <> Signal)
  \/ signalEmitted (Some mo) now st = Aborted AtOutOfRange /\
    (exists j, methodType (method mo j) = Signal).
Proof.
  intros Hall.
  destruct (signalEmitted_handled mo now st)
    as [k' Hk' Hsig' Hnone' Hq' | k' args' rest' Hk' Hsig' Hspy' Hq'
       | Hno | j Hj _].
  - rewrite (Hall k') in Hnone'; [discriminate | lia | assumption].
  - rewrite (Hall k') in Hspy'; [discriminate | lia | assumption].
  - left. split; [reflexivity | assumption].
  - right. split; [reflexivity | eauto].
Qed.

(** ** What the constructor builds *)

Lemma elem_of_signalsFrom mo i k :
  k ∈ signalsFrom mo i <-> (i <= k < methodCount mo /\ methodType (method mo k) = Signal).
Proof.
  unfold signalsFrom. rewrite list_elem_of_filter, elem_of_seq.
  split; intros; (split; [|lia]) || (split; [lia|]); tauto.
Qed.

Lemma NoDup_signalsFrom mo i : NoDup (signalsFrom mo i).
Proof. apply NoDup_filter, NoDup_seq. Qed.

Lemma discover_foldl mo n : forall i st,
  n = methodCount mo - i ->
  discover mo i st = foldl (λ s k, observe k s) st (signalsFrom mo i).
Proof.
  unfold signalsFrom.
  induction n as [|n IH]; intros i st Hn; rewrite discover_step, <- Hn.
  - destruct (decide (i < methodCount mo)); [lia | reflexivity].
  - destruct (decide (i < methodCount mo)) as [Hlt|]; [|lia].
    rewrite (IH (S i)) by lia.
    replace (methodCount mo - S i) with n by lia.
    simpl seq. rewrite filter_cons.
    destruct (isSignal (method mo i)) eqn:Hsig;
      [apply isSignal_true in Hsig | apply isSignal_false in Hsig].
    + rewrite decide_True by assumption. reflexivity.
    + rewrite decide_False by assumption. reflexivity.
Qed.

Lemma observe_all_log ks : forall st,
  log (foldl (λ s k, observe k s) st ks) = log st.
Proof. induction ks as [|k ks IH]; intros st; simpl; [|rewrite IH]; reflexivity. Qed.

Lemma observe_all_diagnostics ks : forall st,
  diagnostics (foldl (λ s k, observe k s) st ks) = diagnostics st.
Proof. induction ks as [|k ks IH]; intros st; simpl; [|rewrite IH]; reflexivity. Qed.

Lemma observe_all_connections ks : forall st,
  connections (foldl (λ s k, observe k s) st ks) = connections st ++ ks ≫= wiring.
Proof.
  induction ks as [|k ks IH]; intros st; simpl.
  - rewrite app_nil_r. reflexivity.
  - rewrite IH. simpl. rewrite <- app_assoc. reflexivity.
Qed.

Lemma observe_all_spies ks : forall st k,
  m_signalSpies (foldl (λ s k, observe k s) st ks) !! k =
  if decide (k ∈ ks) then Some [] else m_signalSpies st !! k.
Proof.
  induction ks as [|k' ks IH]; intros st k; cbn [foldl].
  - rewrite decide_False by apply not_elem_of_nil. reflexivity.
  - rewrite IH. cbn [observe m_signalSpies].
    destruct (decide (k ∈ ks)) as [Hin|Hnin].
    + rewrite decide_True by (right; assumption). reflexivity.
    + destruct (decide (k = k')) as [->|Hne].
      * rewrite decide_True by left. apply lookup_insert_eq.
      * rewrite decide_False by (rewrite elem_of_cons; tauto).
        apply lookup_insert_ne. congruence.
Qed.

Lemma ctor_foldl mo b :
  QSignalInspector_ctor mo b =
  foldl (λ s k, observe k s) newInspector (discovered mo b).
Proof.
  unfold QSignalInspector_ctor, discovered, firstIndex.
  apply (discover_foldl mo _ _ _ eq_refl).
Qed.

Lemma ctor_spies mo b k :
  m_signalSpies (QSignalInspector_ctor mo b) !! k =
  if decide (k ∈ discovered mo b) then Some [] else None.
Proof. rewrite ctor_foldl, observe_all_spies. reflexivity. Qed.

Lemma ctor_connections mo b :
  connections (QSignalInspector_ctor mo b) = discovered mo b ≫= wiring.
Proof. rewrite ctor_foldl, observe_all_connections. reflexivity. Qed.

Lemma ctor_log mo b : log (QSignalInspector_ctor mo b) = [].
Proof. rewrite ctor_foldl, observe_all_log. reflexivity. Qed.

Lemma ctor_diagnostics mo b : diagnostics (QSignalInspector_ctor mo b) = [].
Proof. rewrite ctor_foldl, observe_all_diagnostics. reflexivity. Qed.

Lemma receivers_wiring ks k :
  NoDup ks ->
  receivers k (ks ≫= wiring) =
  if decide (k ∈ ks) then [SpyReceiver k; SignalEmittedSlot] else [].
Proof.
  unfold receivers.
  induction ks as [|k' ks IH]; intros Hnd.
  - rewrite decide_False by apply not_elem_of_nil. reflexivity.
  - apply NoDup_cons in Hnd as [Hnin Hnd]. specialize (IH Hnd).
    rewrite bind_cons, filter_app, fmap_app, IH.
    unfold wiring. rewrite !filter_cons, filter_nil. cbn [fst].
    repeat case_decide; subst; try reflexivity; exfalso;
      rewrite ?elem_of_cons in *; intuition congruence.
Qed.

(** ** States of an inspector of [mo] *)

Lemma ctor_inspecting mo b : inspecting mo b (QSignalInspector_ctor mo b).
Proof.
  split; [|apply ctor_connections].
  intros k. rewrite ctor_spies.
  destruct (decide (k ∈ discovered mo b)) as [Hin|Hnin].
  - split; [auto | eauto].
  - split; [intros [x Hx]; discriminate | tauto].
Qed.

Lemma caught_inspecting mo b k args st :
  inspecting mo b st -> inspecting mo b (caught k args st).
Proof.
  intros [Hkeys Hconn]. split; [|exact Hconn].
  intros j. rewrite <- Hkeys. cbn [caught m_signalSpies].
  rewrite lookup_alter. destruct (decide (k = j)) as [->|]; [|tauto].
  rewrite fmap_is_Some. tauto.
Qed.

Lemma record_inspecting mo b ev k st :
  is_Some (m_signalSpies st !! k) ->
  inspecting mo b st -> inspecting mo b (record ev k st).
Proof.
  intros Hk [Hkeys Hconn]. split; [|exact Hconn].
  intros j. rewrite <- Hkeys. cbn [record m_signalSpies].
  rewrite lookup_insert. destruct (decide (k = j)) as [->|]; [|tauto].
  split; [intros _; exact Hk | eauto].
Qed.

Lemma inspecting_receivers mo b st k :
  inspecting mo b st ->
  receivers k (connections st) =
  if decide (k ∈ discovered mo b) then [SpyReceiver k; SignalEmittedSlot] else [].
Proof.
  intros [_ ->]. apply receivers_wiring, NoDup_signalsFrom.
Qed.

Lemma discovered_is_signal mo b k :
  k ∈ discovered mo b -> methodType (method mo k) = Signal.
Proof. intros H. apply elem_of_signalsFrom in H. tauto. Qed.

(** ** One emission *)

(** Delivering an emission of a discovered signal is the spy catching the
    arguments followed by one invocation of the slot; an emission of any
    other signal reaches nothing. *)
Lemma emit_discovered mo b e st :
  inspecting mo b st -> emittedSignal e ∈ discovered mo b ->
  emit mo e st =
  signalEmitted (Some mo) (emittedAt e)
    (caught (emittedSignal e) (arguments e) st).
Proof.
  intros Hst Hin. unfold emit.
  rewrite (inspecting_receivers mo b st _ Hst), decide_True by assumption.
  cbn [activate].
  destruct (signalEmitted _ _ _); reflexivity.
Qed.

Lemma emit_undiscovered mo b e st :
  inspecting mo b st -> emittedSignal e ∉ discovered mo b ->
  emit mo e st = Returned st.
Proof.
  intros Hst Hin. unfold emit.
  rewrite (inspecting_receivers mo b st _ Hst), decide_False by assumption.
  reflexivity.
Qed.

Lemma caught_lookup k args st j :
  m_signalSpies (caught k args st) !! j =
  if decide (k = j) then (λ spy, spy ++ [args]) <$> m_signalSpies st !! k
  else m_signalSpies st !! j.
Proof. cbn [caught m_signalSpies]. apply lookup_alter. Qed.

(** After the spy has caught the emission, the slot cannot run off the end
    of the method list: it returns, with a warning or with a new record. *)
Lemma emit_returns mo b e st :
  inspecting mo b st ->
  emit mo e st = Returned st \/
  (exists st1, st1 = caught (emittedSignal e) (arguments e) st /\
     (emit mo e st = Returned (warn unexpectedSignal st1) \/
      exists k args rest,
        methodType (method mo k) = Signal /\
        m_signalSpies st1 !! k = Some (args :: rest) /\
        quiet mo (m_signalSpies st1) 0 k /\
        emit mo e st =
        Returned (record {| signal := method mo k; timestamp := emittedAt e;
                            parameters := args |} k st1))).
Proof.
  intros Hst.
  destruct (decide (emittedSignal e ∈ discovered mo b)) as [Hin|Hnin];
    [|left; eapply emit_undiscovered; eassumption].
  right. eexists. split; [reflexivity|].
  rewrite (emit_discovered mo b e st Hst Hin).
  set (st1 := caught _ _ st).
  destruct (signalEmitted_handled mo (emittedAt e) st1)
    as [k' Hk' Hsig' Hnone' Hq' | k' args' rest' Hk' Hsig' Hspy' Hq'
       | Hno | j Hj Hall].
  - left. reflexivity.
  - right. exists k', args', rest'. auto.
  - destruct (Hno _ (discovered_is_signal mo b _ Hin)).
  - exfalso.
    pose proof (discovered_is_signal mo b _ Hin) as Hsig.
    pose proof (signal_in_range mo _ Hsig) as Hlt.
    specialize (Hall (emittedSignal e) ltac:(lia) Hsig).
    subst st1. rewrite caught_lookup, decide_True in Hall by reflexivity.
    destruct (m_signalSpies st !! emittedSignal e) as [spy|]; [|discriminate].
    simpl in Hall. injection Hall as Hall. destruct spy; discriminate.
Qed.

(** ** Counting the discovered signals *)

(** Filtering the indices of a segment of a list is filtering the segment. *)
Lemma signal_indices_length (l : list QMetaMethod) : forall pre : list QMetaMethod,
  length (filter (λ k, methodType (default invalidMethod ((pre ++ l) !! k)) = Signal)
            (seq (length pre) (length l)))
  = length (filter (λ m, methodType m = Signal) l).
Proof.
  induction l as [|m l IH]; intros pre; [reflexivity|].
  cbn [length seq]. rewrite !filter_cons, list_lookup_middle by reflexivity.
  change (default invalidMethod (Some m)) with m.
  specialize (IH (pre ++ [m])).
  rewrite <- app_assoc, length_app in IH. cbn [app length] in IH.
  rewrite Nat.add_1_r in IH.
  destruct (decide (methodType m = Signal)); cbn [length]; rewrite IH; reflexivity.
Qed.

Lemma discovered_own_length mo :
  length (discovered mo false) = declaredSignals (ownMethods mo).
Proof.
  unfold discovered, firstIndex, signalsFrom, method, declaredSignals.
  rewrite methodCount_split, allMethods_split.
  replace (methodOffset mo + length (ownMethods mo) - methodOffset mo)
    with (length (ownMethods mo)) by lia.
  unfold methodOffset.
  apply signal_indices_length.
Qed.

Lemma discovered_all_length mo :
  length (discovered mo true) =
  declaredSignals (inheritedMethods mo) + declaredSignals (ownMethods mo).
Proof.
  unfold discovered, firstIndex, signalsFrom, method, declaredSignals, methodCount.
  rewrite Nat.sub_0_r.
  pose proof (signal_indices_length (allMethods mo) []) as H.
  cbn [app length] in H. rewrite H, allMethods_split, filter_app, length_app.
  reflexivity.
Qed.

Lemma inspecting_size mo b st :
  inspecting mo b st -> size (m_signalSpies st) = length (discovered mo b).
Proof.
  intros [Hkeys _].
  rewrite <- size_dom, <- (size_list_to_set (C := gset nat))
    by apply NoDup_signalsFrom.
  f_equal. apply set_eq. intros k.
  rewrite elem_of_dom, elem_of_list_to_set. apply Hkeys.
Qed.

Lemma ctor_observed mo b k :
  k ∈ discovered mo b ->
  m_signalSpies (QSignalInspector_ctor mo b) !! k = Some [] /\
  receivers k (connections (QSignalInspector_ctor mo b)) =
    [SpyReceiver k; SignalEmittedSlot].
Proof.
  intros Hin.
  rewrite ctor_spies, (inspecting_receivers mo b _ _ (ctor_inspecting mo b)).
  rewrite !decide_True by assumption. auto.
Qed.

Lemma ctor_unobserved mo b k :
  k ∉ discovered mo b ->
  m_signalSpies (QSignalInspector_ctor mo b) !! k = None /\
  receivers k (connections (QSignalInspector_ctor mo b)) = [].
Proof.
  intros Hin.
  rewrite ctor_spies, (inspecting_receivers mo b _ _ (ctor_inspecting mo b)).
  rewrite !decide_False by assumption. auto.
Qed.

(** C3.  Constructed with [includeParentClassSignals = false], the inspector
    has one spy (caught nothing yet) and one connection of the spy and of
    the slot for each signal the exact class declares, none for any other
    method index, and as many spies as the class declares signals;
    constructed with [true], the same holds for the signals of the class and
    of its ancestors together.  No signal is observed twice. *)
Theorem ctor_observes_each_signal_once (mo : QMetaObject) :
  let own k := methodOffset mo <= k < methodCount mo /\
               methodType (method mo k) = Signal in
  let inherited k := k < methodOffset mo /\ methodType (method mo k) = Signal in
  let observed st k := m_signalSpies st !! k = Some [] /\
      receivers k (connections st) = [SpyReceiver k; SignalEmittedSlot] in
  let unobserved st k := m_signalSpies st !! k = None /\
      receivers k (connections st) = [] in
  ((forall k, own k -> observed (QSignalInspector_ctor mo false) k) /\
   (forall k, ~ own k -> unobserved (QSignalInspector_ctor mo false) k) /\
   size (m_signalSpies (QSignalInspector_ctor mo false))
     = declaredSignals (ownMethods mo) /\
   length (connections (QSignalInspector_ctor mo false))
     = 2 * declaredSignals (ownMethods mo))
  /\
  ((forall k, own k \/ inherited k -> observed (QSignalInspector_ctor mo true) k) /\
   (forall k, ~ (own k \/ inherited k) -> unobserved (QSignalInspector_ctor mo true) k) /\
   size (m_signalSpies (QSignalInspector_ctor mo true))
     = declaredSignals (inheritedMethods mo) + declaredSignals (ownMethods mo) /\
   length (connections (QSignalInspector_ctor mo true))
     = 2 * (declaredSignals (inheritedMethods mo) + declaredSignals (ownMethods mo))).
Proof.
  intros own inherited observed unobserved.
  assert (Hlen : forall b, length (connections (QSignalInspector_ctor mo b))
                           = 2 * length (discovered mo b)).
  { intros b. rewrite ctor_connections.
    induction (discovered mo b) as [|k ks IH]; [reflexivity|].
    rewrite bind_cons, length_app, IH. cbn [wiring length]. lia. }
  assert (Hall : forall k, own k \/ inherited k <-> k ∈ discovered mo true).
  { intros k. unfold discovered, firstIndex, own, inherited.
    rewrite elem_of_signalsFrom. pose proof (methodOffset_le mo).
    split; [intros [[? ?]|[? ?]]; split; auto; lia|].
    intros [? ?]. destruct (decide (k < methodOffset mo)); [right | left];
      split; auto; lia. }
  assert (Hown : forall k, own k <-> k ∈ discovered mo false).
  { intros k. unfold discovered, firstIndex, own.
    rewrite elem_of_signalsFrom. reflexivity. }
  split; (split; [|split; [|split]]).
  - intros k Hk. apply ctor_observed, Hown, Hk.
  - intros k Hk. apply ctor_unobserved. rewrite <- Hown. exact Hk.
  - rewrite (inspecting_size mo false) by apply ctor_inspecting.
    apply discovered_own_length.
  - rewrite Hlen, discovered_own_length. reflexivity.
  - intros k Hk. apply ctor_observed, Hall, Hk.
  - intros k Hk. apply ctor_unobserved. rewrite <- Hall. exact Hk.
  - rewrite (inspecting_size mo true) by apply ctor_inspecting.
    apply discovered_all_length.
  - rewrite Hlen, discovered_all_length. reflexivity.
Qed.

(** ** The claims about one invocation of the slot *)

Lemma find_seq_first (f : nat -> bool) n : forall a k,
  a <= k < a + n -> f k = true -> (forall j, a <= j < k -> f j = false) ->
  List.find f (seq a n) = Some k.
Proof.
  induction n as [|n IH]; intros a k Hk Hfk Hbefore; [lia|].
  cbn [seq List.find].
  destruct (decide (a = k)) as [->|Hne].
  - rewrite Hfk. reflexivity.
  - rewrite (Hbefore a) by lia. apply IH; [lia | assumption|].
    intros j Hj. apply Hbefore. lia.
Qed.

Lemma firstPending_first mo spies k :
  methodType (method mo k) = Signal -> pending spies k -> quiet mo spies 0 k ->
  firstPending mo spies = Some k.
Proof.
  intros Hsig (spy & Hspy & Hlen) Hq. unfold firstPending.
  apply find_seq_first.
  - pose proof (signal_in_range mo k Hsig). lia.
  - apply andb_true_intro. split; [apply isSignal_true; assumption|].
    apply bool_decide_eq_true. unfold count. rewrite Hspy. exact Hlen.
  - intros j Hj.
    destruct (isSignal (method mo j)) eqn:Hj_sig; [|reflexivity].
    apply isSignal_true in Hj_sig. cbn [andb].
    apply bool_decide_eq_false. unfold count.
    rewrite (Hq j) by (lia || assumption). cbn [length]. lia.
Qed.

Lemma find_seq_some (f : nat -> bool) n : forall a k,
  List.find f (seq a n) = Some k ->
  a <= k < a + n /\ f k = true /\ forall j, a <= j < k -> f j = false.
Proof.
  induction n as [|n IH]; intros a k Hfind; cbn [seq List.find] in Hfind;
    [discriminate|].
  destruct (f a) eqn:Hfa.
  - injection Hfind as <-. split; [lia|]. split; [assumption|].
    intros j Hj. lia.
  - destruct (IH _ _ Hfind) as (Hk & Hfk & Hbefore).
    split; [lia|]. split; [assumption|].
    intros j Hj. destruct (decide (j = a)) as [->|Hne]; [assumption|].
    apply Hbefore. lia.
Qed.

Lemma firstPending_some mo spies k :
  firstPending mo spies = Some k ->
  methodType (method mo k) = Signal /\ pending spies k /\
  forall j, j < k -> methodType (method mo j) = Signal -> count spies j = 0.
Proof.
  intros Hfind. apply find_seq_some in Hfind as (_ & Hk & Hbefore).
  apply andb_prop in Hk as [Hsig Hcount].
  apply isSignal_true in Hsig. apply bool_decide_eq_true in Hcount.
  split; [assumption|]. split.
  - unfold count in Hcount. destruct (spies !! k) as [spy|] eqn:Hspy; [|lia].
    exists spy. auto.
  - intros j Hj Hjsig. specialize (Hbefore j ltac:(lia)).
    apply isSignal_true in Hjsig. rewrite Hjsig in Hbefore. cbn [andb] in Hbefore.
    apply bool_decide_eq_false in Hbefore. lia.
Qed.

(** C2.  Whenever an invocation of the slot appends a record, the signal
    stored in the record is the method at the first index, counting from 0,
    that is a signal and whose spy reports a non-zero count (methods that
    are not signals being passed over), and the parameters are the first
    argument list that spy holds.  Conversely, when there is such a first
    index and every signal before it has a spy, the invocation appends the
    record of that signal. *)
Theorem recorded_signal_is_first_pending
    (mo : QMetaObject) (now : QDateTime) (st : State) :
  (forall st' ev,
     signalEmitted (Some mo) now st = Returned st' ->
     log st' = log st ++ [ev] ->
     exists k, firstPending mo (m_signalSpies st) = Some k /\
               signal ev = method mo k /\
               head <$> m_signalSpies st !! k = Some (Some (parameters ev))) /\
  (forall k,
     firstPending mo (m_signalSpies st) = Some k ->
     (forall j, j < k -> methodType (method mo j) = Signal ->
                is_Some (m_signalSpies st !! j)) ->
     exists args rest,
       m_signalSpies st !! k = Some (args :: rest) /\
       signalEmitted (Some mo) now st =
       Returned (record {| signal := method mo k; timestamp := now;
                           parameters := args |} k st)).
Proof.
  split.
  - intros st' ev Hret Hlog.
    destruct (signalEmitted_handled mo now st)
      as [k _ Hsig Hnone Hq | k args rest _ Hsig Hspy Hq | Hno | j Hj Hall];
      [| |discriminate..]; injection Hret as <-.
    + cbn [warn log] in Hlog. apply (f_equal length) in Hlog.
      rewrite length_app in Hlog. cbn [length] in Hlog. lia.
    + cbn [record log] in Hlog. apply app_inv_head in Hlog.
      injection Hlog as <-. exists k. split; [|split].
      * apply firstPending_first; [assumption| |assumption].
        exists (args :: rest). split; [assumption | cbn [length]; lia].
      * reflexivity.
      * rewrite Hspy. reflexivity.
  - intros k Hfirst Hspies.
    apply firstPending_some in Hfirst as (Hsig & (spy & Hspy & Hlen) & Hbefore).
    destruct spy as [|args rest]; [cbn [length] in Hlen; lia|].
    exists args, rest. split; [assumption|].
    apply (signalEmitted_records mo now st k args rest); [assumption..|].
    intros j Hj Hjsig. specialize (Hbefore j ltac:(lia) Hjsig).
    destruct (Hspies j ltac:(lia) Hjsig) as [spy Hjspy].
    unfold count in Hbefore. rewrite Hjspy in Hbefore |- *.
    destruct spy; [reflexivity | discriminate].
Qed.

(** C5.  When the scan reaches a signal that has no spy in the table (every
    signal before it has a spy that has caught nothing), the slot prints the
    warning and returns: no record is appended, the table and the
    connections are as before, and the call ends normally. *)
Theorem missing_spy_is_reported_and_skipped
    (mo : QMetaObject) (now : QDateTime) (st : State) (k : nat) :
  methodType (method mo k) = Signal ->
  m_signalSpies st !! k = None ->
  quiet mo (m_signalSpies st) 0 k ->
  exists st',
    signalEmitted (Some mo) now st = Returned st' /\
    log st' = log st /\
    m_signalSpies st' = m_signalSpies st /\
    connections st' = connections st /\
    diagnostics st' = diagnostics st ++ [unexpectedSignal].
Proof.
  intros Hsig Hnone Hq. exists (warn unexpectedSignal st).
  split; [eapply signalEmitted_unexpected; eassumption|].
  repeat split.
Qed.

Lemma signalEmitted_log sender now st st' :
  signalEmitted sender now st = Returned st' ->
  log st' = log st \/ exists ev, log st' = log st ++ [ev].
Proof.
  destruct sender as [mo|]; [|cbn; destruct QT_NO_DEBUG; discriminate].
  intros Hret.
  destruct (signalEmitted_handled mo now st)
    as [k _ Hsig Hnone Hq | k args rest _ Hsig Hspy Hq | Hno | j Hj Hall];
    [| |discriminate..]; injection Hret as <-.
  - left. reflexivity.
  - right. eexists. reflexivity.
Qed.

Lemma activate_log mo args now rs : forall st st',
  activate mo args now rs st = Returned st' -> log st `prefix_of` log st'.
Proof.
  induction rs as [|[key|] rs IH]; intros st st' Hret; cbn [activate] in Hret.
  - injection Hret as <-. reflexivity.
  - apply IH in Hret. exact Hret.
  - destruct (signalEmitted (Some mo) now st) as [st1|] eqn:Hslot; [|discriminate].
    apply IH in Hret. etransitivity; [|exact Hret].
    destruct (signalEmitted_log _ _ _ _ Hslot) as [-> | [ev ->]];
      [reflexivity | apply prefix_app_r; reflexivity].
Qed.

Lemma run_log mo es : forall st st',
  run mo es st = Returned st' -> log st `prefix_of` log st'.
Proof.
  induction es as [|e es IH]; intros st st' Hret; cbn [run] in Hret.
  - injection Hret as <-. reflexivity.
  - destruct (emit mo e st) as [st1|] eqn:Hemit; [|discriminate].
    etransitivity; [|apply (IH _ _ Hret)].
    eapply activate_log. exact Hemit.
Qed.

(** C8.  The log is empty when the constructor has run.  An invocation of
    the slot that returns leaves the log as it was or appends one record at
    its end; so whatever is emitted afterwards, the log before is a prefix
    of the log after: no record is changed or removed. *)
Theorem log_is_append_only :
  (forall mo b, log (QSignalInspector_ctor mo b) = []) /\
  (forall sender now st st',
     signalEmitted sender now st = Returned st' ->
     log st' = log st \/ exists ev, log st' = log st ++ [ev]) /\
  (forall mo es st st',
     run mo es st = Returned st' -> log st `prefix_of` log st').
Proof.
  split; [exact ctor_log|]. split; [exact signalEmitted_log | exact run_log].
Qed.

(** ** When the slot runs off the end of the method list *)

Lemma quiet_not_pending mo spies k :
  k < methodCount mo -> methodType (method mo k) = Signal ->
  quiet mo spies 0 (methodCount mo) -> ~ pending spies k.
Proof.
  intros Hk Hsig Hq (spy & Hspy & Hlen).
  rewrite (Hq k) in Hspy by (lia || assumption).
  injection Hspy as <-. cbn [length] in Hlen. lia.
Qed.

Lemma select_exhausted mo spies :
  quiet mo spies 0 (methodCount mo) ->
  exists q, select mo spies 0 None = Leave (methodCount mo) q /\
            match q with
            | None => forall j, methodType (method mo j) <> Signal
            | Some j => methodType (method mo j) = Signal /\ spies !! j = Some []
            end.
Proof.
  intros Hq.
  pose proof (select_post_holds mo spies _ 0 None eq_refl ltac:(lia)) as Hpost.
  destruct (select mo spies 0 None) as [|k q]; cbn [select_post] in Hpost.
  - destruct Hpost as (k & Hk & Hsig & Hnone & _).
    rewrite (Hq k) in Hnone by (lia || assumption). discriminate.
  - destruct Hpost as (_ & _ & [(Hk & Hsig & _ & Hpend)
                              | (-> & [[-> Hnone] | (j & Hj & Hsig & ->)])]).
    + destruct (quiet_not_pending mo spies k Hk Hsig Hq Hpend).
    + exists None. split; [reflexivity|]. intros j Hsig.
      apply (Hnone j); [|assumption].
      pose proof (signal_in_range mo j Hsig). lia.
    + exists (Some j). split; [reflexivity|]. split; [assumption|].
      apply Hq; assumption.
Qed.

(** C9, as the code has it.  The slot reads past the end exactly when every
    signal of the sender has a spy in the table and every one of these spies
    reports a count of zero.  Then the loop is left with [signalIndex] equal
    to the method count, an index at which there is no method, and with
    [signalSpy] pointing to the empty spy of the last signal, whose element 0
    is read (or still null, when the sender has no signal at all).  In every
    other case the slot returns: in particular when the spy of some signal
    of the sender reports a non-zero count, and when some signal of the
    sender has no spy. *)
Theorem slot_runs_off_the_end_iff_all_quiet
    (mo : QMetaObject) (now : QDateTime) (st : State) :
  ((exists f, signalEmitted (Some mo) now st = Aborted f) <->
   quiet mo (m_signalSpies st) 0 (methodCount mo)) /\
  (quiet mo (m_signalSpies st) 0 (methodCount mo) ->
   method mo (methodCount mo) = invalidMethod /\
   exists q, select mo (m_signalSpies st) 0 None = Leave (methodCount mo) q /\
     match q with
     | None => signalEmitted (Some mo) now st = Aborted NullSpy /\
               forall j, methodType (method mo j) <> Signal
     | Some j => signalEmitted (Some mo) now st = Aborted AtOutOfRange /\
                 methodType (method mo j) = Signal /\
                 m_signalSpies st !! j = Some []
     end) /\
  (forall k, methodType (method mo k) = Signal ->
     pending (m_signalSpies st) k \/ m_signalSpies st !! k = None ->
     exists st', signalEmitted (Some mo) now st = Returned st').
Proof.
  assert (Hsafe : forall k, methodType (method mo k) = Signal ->
            m_signalSpies st !! k <> Some [] ->
            ~ quiet mo (m_signalSpies st) 0 (methodCount mo)).
  { intros k Hsig Hne Hq. apply Hne, Hq; [|assumption].
    pose proof (signal_in_range mo k Hsig). lia. }
  assert (Hiff : (exists f, signalEmitted (Some mo) now st = Aborted f) <->
                 quiet mo (m_signalSpies st) 0 (methodCount mo)).
  { split.
    - intros [f Hf].
      destruct (signalEmitted_handled mo now st)
        as [k _ Hsig Hnone Hq | k args rest _ Hsig Hspy Hq | Hno | j Hj Hall];
        [discriminate.. | | assumption].
      intros j _ Hsig. destruct (Hno j Hsig).
    - intros Hq.
      destruct (signalEmitted_exhausted mo now st Hq) as [[-> _]|[-> _]]; eauto. }
  split; [exact Hiff|]. split.
  - intros Hq. split; [apply method_out_of_range; lia|].
    destruct (select_exhausted mo _ Hq) as (q & Hsel & Hptr).
    exists q. split; [assumption|].
    unfold signalEmitted. rewrite Hsel.
    destruct q as [j|]; [|split; [reflexivity | assumption]].
    destruct Hptr as [Hsig Hspy]. rewrite Hspy. auto.
  - intros k Hsig Hk.
    destruct (signalEmitted (Some mo) now st) as [st'|f] eqn:Hslot; [eauto|].
    exfalso. apply (Hsafe k Hsig); [|apply Hiff; eauto].
    destruct Hk as [(spy & -> & Hlen) | ->]; [|discriminate].
    intros [= ->]. cbn [length] in Hlen. lia.
Qed.

(** ** Sequences of emissions *)

Lemma caught_then_cleared k args st :
  m_signalSpies st !! k = Some [] ->
  <[k := []]> (m_signalSpies (caught k args st)) = m_signalSpies st.
Proof.
  intros Hk. apply map_eq. intros j.
  rewrite lookup_insert. destruct (decide (k = j)) as [->|Hne]; [congruence|].
  rewrite caught_lookup, decide_False by assumption. reflexivity.
Qed.

(** With every signal of the object discovered and every spy idle, one
    emission of a signal leaves one record, and every spy idle again. *)
Lemma emit_records mo b e st :
  (forall k, methodType (method mo k) = Signal -> k ∈ discovered mo b) ->
  inspecting mo b st -> idle st ->
  methodType (method mo (emittedSignal e)) = Signal ->
  exists st', emit mo e st = Returned st' /\
              log st' = log st ++ [eventOf mo e] /\
              m_signalSpies st' = m_signalSpies st /\
              connections st' = connections st /\
              diagnostics st' = diagnostics st.
Proof.
  intros Hcover Hst Hidle Hsig.
  pose proof (Hcover _ Hsig) as Hin.
  assert (Hspy : forall k, methodType (method mo k) = Signal ->
                           m_signalSpies st !! k = Some []).
  { intros k Hk. destruct (proj2 (proj1 Hst k) (Hcover k Hk)) as [spy Hspy].
    rewrite Hspy. f_equal. eapply Hidle. eassumption. }
  rewrite (emit_discovered mo b e st Hst Hin).
  rewrite (signalEmitted_records mo _ _ (emittedSignal e) (arguments e) []).
  - eexists. split; [reflexivity|]. cbn [record log caught m_signalSpies].
    split; [reflexivity|]. split; [|split; reflexivity].
    apply (caught_then_cleared _ (arguments e) st), Hspy, Hsig.
  - assumption.
  - rewrite caught_lookup, decide_True, (Hspy _ Hsig) by reflexivity. reflexivity.
  - intros j Hj Hjsig. rewrite caught_lookup, decide_False by lia.
    apply Hspy, Hjsig.
Qed.

Lemma run_records mo b es : forall st,
  (forall k, methodType (method mo k) = Signal -> k ∈ discovered mo b) ->
  inspecting mo b st -> idle st ->
  Forall (λ e, methodType (method mo (emittedSignal e)) = Signal) es ->
  exists st', run mo es st = Returned st' /\
              log st' = log st ++ (eventOf mo <$> es) /\
              diagnostics st' = diagnostics st.
Proof.
  induction es as [|e es IH]; intros st Hcover Hst Hidle Hes; cbn [run].
  - exists st. rewrite app_nil_r. auto.
  - apply Forall_cons in Hes as [He Hes].
    destruct (emit_records mo b e st Hcover Hst Hidle He)
      as (st1 & -> & Hlog & Hspies & Hconn & Hdiag).
    destruct (IH st1 Hcover) as (st' & Hrun & Hlog' & Hdiag').
    + destruct Hst as [Hkeys Hc]. split; [rewrite Hspies | rewrite Hconn]; assumption.
    + intros k spy. rewrite Hspies. apply Hidle.
    + assumption.
    + exists st'. split; [assumption|]. rewrite Hlog', Hlog, Hdiag', Hdiag.
      rewrite <- app_assoc. auto.
Qed.

Lemma ctor_idle mo b : idle (QSignalInspector_ctor mo b).
Proof.
  intros k spy. rewrite ctor_spies. destruct (decide _); congruence.
Qed.

(** When every signal of the object is discovered (the inspector was
    constructed with the signals of the parent classes, or the parent
    classes declare none), every delivery to the method index of a signal is
    recorded: [k] deliveries leave [k] records, in their order and with their
    arguments, and nothing is reported. *)
Lemma emissions_recorded mo b es :
  (b = false ->
   forall i, i < methodOffset mo -> methodType (method mo i) <> Signal) ->
  Forall (λ e, methodType (method mo (emittedSignal e)) = Signal) es ->
  exists st, run mo es (QSignalInspector_ctor mo b) = Returned st /\
             log st = eventOf mo <$> es /\ diagnostics st = [].
Proof.
  intros Hb Hes.
  destruct (run_records mo b es (QSignalInspector_ctor mo b))
    as (st & Hrun & Hlog & Hdiag).
  - intros k Hk. apply elem_of_signalsFrom. unfold firstIndex.
    pose proof (signal_in_range mo k Hk).
    split; [|assumption]. destruct b; [lia|].
    destruct (decide (k < methodOffset mo)) as [Hlt|]; [|lia].
    destruct (Hb eq_refl k Hlt Hk).
  - apply ctor_inspecting.
  - apply ctor_idle.
  - assumption.
  - exists st. rewrite Hlog, Hdiag, ctor_log, ctor_diagnostics. auto.
Qed.

(** C1, at an input where it fails.  A door inherits three signals from
    [QObject] and declares [opened()] and [closed(QString)], which the
    inspector constructed with [includeParentClassSignals = false]
    discovers.  The door emits [opened()] and then [closed("timeout")]: the
    log should hold these two records, in this order.  It holds none; each
    invocation of the slot ends with the warning.  With the flag [true] the
    same emissions are recorded. *)
Theorem own_signals_are_not_recorded_without_parents :
  Forall (λ e, emittedSignal e ∈ discovered doorMeta false) doorEmissions /\
  (exists st, run doorMeta doorEmissions (QSignalInspector_ctor doorMeta false)
              = Returned st /\
              log st = [] /\
              diagnostics st = [unexpectedSignal; unexpectedSignal]) /\
  (exists st, run doorMeta doorEmissions (QSignalInspector_ctor doorMeta true)
              = Returned st /\
              log st = eventOf doorMeta <$> doorEmissions).
Proof.
  split; [|split].
  - repeat constructor; apply elem_of_signalsFrom; vm_compute;
      (split; [lia | reflexivity]).
  - eexists. split; [vm_compute; reflexivity|]. split; reflexivity.
  - eexists. split; [vm_compute; reflexivity|]. reflexivity.
Qed.

(** The first signal of a meta-object that has one. *)
Lemma first_signal mo n :
  (forall j, j < n -> methodType (method mo j) <> Signal) \/
  exists k, k < n /\ methodType (method mo k) = Signal /\
            forall j, j < k -> methodType (method mo j) <> Signal.
Proof.
  induction n as [|n [Hnone | (k & Hk & Hsig & Hfirst)]].
  - left. intros j Hj. lia.
  - destruct (decide (methodType (method mo n) = Signal)) as [Hsig|Hnot].
    + right. exists n. split; [lia|]. split; assumption.
    + left. intros j Hj. destruct (decide (j = n)) as [->|]; [assumption|].
      apply Hnone. lia.
  - right. exists k. split; [lia|]. split; assumption.
Qed.

Lemma own_only_blocked mo now st :
  (exists i, i < methodOffset mo /\ methodType (method mo i) = Signal) ->
  inspecting mo false st ->
  exists k, k < methodOffset mo /\ methodType (method mo k) = Signal /\
            (forall j, j < k -> methodType (method mo j) <> Signal) /\
            m_signalSpies st !! k = None /\
            signalEmitted (Some mo) now st = Returned (warn unexpectedSignal st).
Proof.
  intros (i & Hi & Hsig) [Hkeys _].
  destruct (first_signal mo (S i)) as [Hnone | (k & Hk & Hksig & Hfirst)];
    [destruct (Hnone i ltac:(lia) Hsig)|].
  assert (Hmissing : m_signalSpies st !! k = None).
  { apply eq_None_not_Some. rewrite Hkeys. unfold discovered, firstIndex.
    rewrite elem_of_signalsFrom. lia. }
  exists k. split; [lia|]. repeat (split; [assumption|]).
  apply (signalEmitted_unexpected mo now st k); [assumption..|].
  intros j Hj Hjsig. destruct (Hfirst j ltac:(lia) Hjsig).
Qed.

(** C4.  Let an ancestor of the class declare a signal, and let the
    inspector be constructed with [includeParentClassSignals = false].  In
    every state of this inspector an invocation of the slot comes, before
    any method of the class itself, to a signal of an ancestor, which has no
    spy; it prints the warning and returns, the log unchanged.  So whatever
    the object emits, the log stays empty. *)
Theorem nothing_is_recorded_without_parents (mo : QMetaObject) :
  (exists i, i < methodOffset mo /\ methodType (method mo i) = Signal) ->
  (forall now st, inspecting mo false st ->
     exists k, k < methodOffset mo /\ methodType (method mo k) = Signal /\
               (forall j, j < k -> methodType (method mo j) <> Signal) /\
               m_signalSpies st !! k = None /\
               signalEmitted (Some mo) now st
                 = Returned (warn unexpectedSignal st)) /\
  (forall es, exists st,
     run mo es (QSignalInspector_ctor mo false) = Returned st /\ log st = []).
Proof.
  intros Hparent. split; [intros now st; apply own_only_blocked, Hparent|].
  intros es.
  assert (Hrun : forall st, inspecting mo false st ->
            exists st', run mo es st = Returned st' /\ log st' = log st).
  { induction es as [|e es IH]; intros st Hst; cbn [run]; [eauto|].
    destruct (decide (emittedSignal e ∈ discovered mo false)) as [Hin|Hnin].
    - rewrite (emit_discovered mo false e st Hst Hin).
      set (st1 := caught (emittedSignal e) (arguments e) st).
      assert (Hst1 : inspecting mo false st1) by (apply caught_inspecting, Hst).
      destruct (own_only_blocked mo (emittedAt e) st1 Hparent Hst1)
        as (k & _ & _ & _ & _ & ->).
      destruct (IH (warn unexpectedSignal st1) Hst1) as (st' & Hst' & Hlog).
      exists st'. split; [assumption|]. rewrite Hlog. reflexivity.
    - rewrite (emit_undiscovered mo false e st Hst Hnin). apply IH, Hst. }
  destruct (Hrun _ (ctor_inspecting mo false)) as (st & Hst & Hlog).
  exists st. split; [assumption|]. rewrite Hlog. apply ctor_log.
Qed.

(** C6.  When an invocation of the slot has appended a record, the spy it
    read from reports a count of zero; and the next emission of the same
    signal appends a record of its own, after the first and with its own
    arguments and time, the first record staying as it was. *)
Theorem consumed_firing_is_cleared
    (mo : QMetaObject) (b : bool) (now : QDateTime) (st st' : State)
    (ev : QSignalEmissionEvent) :
  inspecting mo b st ->
  signalEmitted (Some mo) now st = Returned st' ->
  log st' = log st ++ [ev] ->
  exists k,
    signal ev = method mo k /\
    m_signalSpies st' !! k = Some [] /\
    count (m_signalSpies st') k = 0 /\
    forall args now', exists st'',
      emit mo {| emittedSignal := k; arguments := args; emittedAt := now' |} st'
        = Returned st'' /\
      log st'' = log st ++
        [ev; {| signal := method mo k; timestamp := now'; parameters := args |}].
Proof.
  intros Hst Hret Hlog.
  destruct (signalEmitted_handled mo now st)
    as [k _ Hsig Hnone Hq | k args rest _ Hsig Hspy Hq | Hno | j Hj Hall];
    [| |discriminate..]; injection Hret as <-.
  { cbn [warn log] in Hlog. apply (f_equal length) in Hlog.
    rewrite length_app in Hlog. cbn [length] in Hlog. lia. }
  cbn [record log] in Hlog. apply app_inv_head in Hlog. injection Hlog as <-.
  set (st' := record _ k st).
  assert (Hcleared : m_signalSpies st' !! k = Some [])
    by apply lookup_insert_eq.
  assert (Hst' : inspecting mo b st')
    by (apply record_inspecting; [rewrite Hspy; eauto | assumption]).
  assert (Hin : k ∈ discovered mo b)
    by (apply (proj1 Hst'); rewrite Hcleared; eauto).
  exists k. split; [reflexivity|]. split; [assumption|].
  split; [unfold count; rewrite Hcleared; reflexivity|].
  intros args' now'.
  rewrite (emit_discovered mo b
             {| emittedSignal := k; arguments := args'; emittedAt := now' |}
             st' Hst' Hin).
  cbn [emittedSignal arguments emittedAt].
  rewrite (signalEmitted_records mo now' _ k args' []).
  - eexists. split; [reflexivity|].
    subst st'. cbn [record log caught]. rewrite <- app_assoc. reflexivity.
  - assumption.
  - rewrite caught_lookup, decide_True, Hcleared by reflexivity. reflexivity.
  - intros j Hj Hjsig. rewrite caught_lookup, decide_False by lia.
    subst st'. cbn [record m_signalSpies].
    rewrite lookup_insert_ne by lia. apply Hq; assumption.
Qed.

(** ** Records match the signature of their signal *)

Lemma caught_typed mo e st :
  wellTyped mo e -> spiesTyped mo st ->
  spiesTyped mo (caught (emittedSignal e) (arguments e) st).
Proof.
  intros He Hst k spy args. rewrite caught_lookup.
  destruct (decide (emittedSignal e = k)) as [<-|Hne]; [|apply Hst].
  destruct (m_signalSpies st !! emittedSignal e) as [spy0|] eqn:Hspy0;
    [|discriminate].
  intros [= <-] [Hin | ->%list_elem_of_singleton]%elem_of_app.
  - eapply Hst; eassumption.
  - exact He.
Qed.

Lemma record_typed mo ev k st : spiesTyped mo st -> spiesTyped mo (record ev k st).
Proof.
  intros Hst j spy args. cbn [record m_signalSpies]. rewrite lookup_insert.
  destruct (decide (k = j)) as [->|Hne]; [|apply Hst].
  intros [= <-] Hin. apply not_elem_of_nil in Hin. destruct Hin.
Qed.

Lemma emit_typed mo b e st :
  wellTyped mo e -> inspecting mo b st -> spiesTyped mo st ->
  Forall matchesSignature (log st) ->
  exists st', emit mo e st = Returned st' /\ inspecting mo b st' /\
              spiesTyped mo st' /\ Forall matchesSignature (log st').
Proof.
  intros He Hst Htyped Hlog.
  destruct (emit_returns mo b e st Hst)
    as [-> | (st1 & -> & [-> | (k & args & rest & Hsig & Hspy & Hq & ->)])].
  - eauto.
  - eexists. split; [reflexivity|]. split; [apply caught_inspecting, Hst|].
    split; [apply caught_typed; assumption | exact Hlog].
  - eexists. split; [reflexivity|].
    pose proof (caught_typed mo e st He Htyped) as Htyped1.
    split; [|split].
    + apply record_inspecting; [rewrite Hspy; eauto|].
      apply caught_inspecting, Hst.
    + apply record_typed, Htyped1.
    + cbn [record log caught]. apply Forall_app. split; [exact Hlog|].
      apply Forall_singleton. unfold matchesSignature. cbn [parameters signal].
      apply (Htyped1 k (args :: rest) args Hspy). left.
Qed.

(** C7.  If the object emits its signals with arguments of the declared
    types, every record in the log has parameters of the length and the
    types of the formal parameters of the signal stored in it.  And in each
    record the parameters were read from the spy stored under the method
    index whose method is the recorded signal. *)
Theorem records_match_their_signal :
  (forall mo b es,
     Forall (wellTyped mo) es ->
     exists st, run mo es (QSignalInspector_ctor mo b) = Returned st /\
                Forall matchesSignature (log st)) /\
  (forall mo now st st' ev,
     signalEmitted (Some mo) now st = Returned st' ->
     log st' = log st ++ [ev] ->
     exists k rest, signal ev = method mo k /\
                    m_signalSpies st !! k = Some (parameters ev :: rest)).
Proof.
  split.
  - intros mo b es Hes.
    assert (Hrun : forall st, inspecting mo b st -> spiesTyped mo st ->
              Forall matchesSignature (log st) ->
              exists st', run mo es st = Returned st' /\
                          Forall matchesSignature (log st')).
    { induction Hes as [|e es He Hes IH]; intros st Hst Htyped Hlog; cbn [run];
        [eauto|].
      destruct (emit_typed mo b e st He Hst Htyped Hlog)
        as (st1 & -> & Hst1 & Htyped1 & Hlog1).
      apply IH; assumption. }
    apply Hrun.
    + apply ctor_inspecting.
    + intros k spy args Hspy Hin. apply ctor_idle in Hspy as ->.
      apply not_elem_of_nil in Hin. destruct Hin.
    + rewrite ctor_log. constructor.
  - intros mo now st st' ev Hret Hlog.
    destruct (signalEmitted_handled mo now st)
      as [k _ Hsig Hnone Hq | k args rest _ Hsig Hspy Hq | Hno | j Hj Hall];
      [| |discriminate..]; injection Hret as <-.
    + cbn [warn log] in Hlog. apply (f_equal length) in Hlog.
      rewrite length_app in Hlog. cbn [length] in Hlog. lia.
    + cbn [record log] in Hlog. apply app_inv_head in Hlog. injection Hlog as <-.
      exists k, rest. split; [reflexivity | exact Hspy].
Qed.

(** * Further properties of the constructor and the slot *)

(** ** Induction over a sequence of emissions *)

(** What one emission of a discovered signal does: the spy catches it, and
    the slot either warns or records the signal [k] at which its scan stops,
    a discovered one. *)
Lemma emit_delivered mo b e st :
  inspecting mo b st -> emittedSignal e ∈ discovered mo b ->
  emit mo e st
    = Returned (warn unexpectedSignal (caught (emittedSignal e) (arguments e) st))
  \/ exists k args rest,
       k ∈ discovered mo b /\
       m_signalSpies (caught (emittedSignal e) (arguments e) st) !! k
         = Some (args :: rest) /\
       quiet mo (m_signalSpies (caught (emittedSignal e) (arguments e) st)) 0 k /\
       emit mo e st =
       Returned (record {| signal := method mo k; timestamp := emittedAt e;
                           parameters := args |} k
                   (caught (emittedSignal e) (arguments e) st)).
Proof.
  intros Hst Hin.
  destruct (emit_returns mo b e st Hst)
    as [Hsame | (st1 & -> & [Hwarn | (k & args & rest & Hsig & Hspy & Hq & Hrec)])].
  - exfalso. rewrite (emit_discovered mo b e st Hst Hin) in Hsame.
    destruct (signalEmitted_handled mo (emittedAt e)
                (caught (emittedSignal e) (arguments e) st))
      as [k _ _ _ _ | k args rest _ _ _ _ | Hno | j _ _]; try discriminate.
    + injection Hsame as Hsame. apply (f_equal diagnostics) in Hsame.
      cbn [warn caught diagnostics] in Hsame.
      apply (f_equal length) in Hsame. rewrite length_app in Hsame.
      cbn [length] in Hsame. lia.
    + injection Hsame as Hsame. apply (f_equal log) in Hsame.
      cbn [record caught log] in Hsame.
      apply (f_equal length) in Hsame. rewrite length_app in Hsame.
      cbn [length] in Hsame. lia.
  - left. assumption.
  - right. exists k, args, rest. split; [|auto].
    apply (proj1 (caught_inspecting mo b (emittedSignal e) (arguments e) st Hst) k).
    rewrite Hspy. eauto.
Qed.

Lemma emit_inspecting mo b e st :
  inspecting mo b st ->
  exists st', emit mo e st = Returned st' /\ inspecting mo b st'.
Proof.
  intros Hst.
  destruct (decide (emittedSignal e ∈ discovered mo b)) as [Hin|Hnin].
  - destruct (emit_delivered mo b e st Hst Hin)
      as [-> | (k & args & rest & Hk & Hspy & _ & ->)].
    + eexists. split; [reflexivity|]. apply caught_inspecting, Hst.
    + eexists. split; [reflexivity|].
      apply record_inspecting; [rewrite Hspy; eauto|].
      apply caught_inspecting, Hst.
  - rewrite (emit_undiscovered mo b e st Hst Hnin). eauto.
Qed.

(** A property of the emissions delivered so far and of the state that
    holds at the start and is kept by every emission holds after any run. *)
Lemma run_invariant mo b (Inv : list Emission -> State -> Prop) :
  (forall done e st st',
     inspecting mo b st -> Inv done st -> emit mo e st = Returned st' ->
     Inv (done ++ [e]) st') ->
  forall es done st,
    inspecting mo b st -> Inv done st ->
    exists st', run mo es st = Returned st' /\ inspecting mo b st' /\
                Inv (done ++ es) st'.
Proof.
  intros Hstep es.
  induction es as [|e es IH]; intros done st Hst Hinv; cbn [run].
  - exists st. rewrite app_nil_r. auto.
  - destruct (emit_inspecting mo b e st Hst) as (st1 & Hemit & Hst1).
    rewrite Hemit.
    destruct (IH (done ++ [e]) st1 Hst1 (Hstep _ _ _ _ Hst Hinv Hemit))
      as (st' & Hrun & Hst' & Hinv').
    exists st'. rewrite <- app_assoc in Hinv'. auto.
Qed.

Lemma delivered_snoc mo b done e :
  delivered mo b (done ++ [e]) =
  delivered mo b done ++
    (if decide (emittedSignal e ∈ discovered mo b) then [e] else []).
Proof.
  unfold delivered. rewrite filter_app, filter_cons, filter_nil. reflexivity.
Qed.

(** X2.  Whatever the flag and whatever the object emits after the
    inspector has been constructed, no emission stops the process: every
    invocation of the slot made in the course of an emission returns. *)
Theorem emissions_never_abort (mo : QMetaObject) (b : bool) (es : list Emission) :
  exists st, run mo es (QSignalInspector_ctor mo b) = Returned st.
Proof.
  destruct (run_invariant mo b (λ _ _, True) ltac:(auto) es []
              (QSignalInspector_ctor mo b) (ctor_inspecting mo b) I)
    as (st & Hrun & _).
  eauto.
Qed.

(** Every delivery to the index of a discovered signal is answered by
    exactly one of the two: a record appended to the log, or the warning; no
    other delivery leaves a trace, and nothing but that warning is ever
    printed. *)
Theorem one_record_or_warning_per_delivery
    (mo : QMetaObject) (b : bool) (es : list Emission) :
  exists st,
    run mo es (QSignalInspector_ctor mo b) = Returned st /\
    length (log st) + length (diagnostics st) = length (delivered mo b es) /\
    Forall (eq unexpectedSignal) (diagnostics st).
Proof.
  destruct (run_invariant mo b
              (λ done st,
                 length (log st) + length (diagnostics st)
                   = length (delivered mo b done) /\
                 Forall (eq unexpectedSignal) (diagnostics st)))
    with (es := es) (done := @nil Emission) (st := QSignalInspector_ctor mo b)
    as (st & Hrun & _ & Hinv).
  - intros done e st st' Hst [Hlen Hdiag] Hemit.
    rewrite delivered_snoc, length_app.
    destruct (decide (emittedSignal e ∈ discovered mo b)) as [Hin|Hnin].
    + destruct (emit_delivered mo b e st Hst Hin)
        as [Hwarn | (k & args & rest & _ & _ & _ & Hrec)];
        [rewrite Hwarn in Hemit | rewrite Hrec in Hemit];
        injection Hemit as <-.
      * cbn [warn caught log diagnostics]. rewrite length_app. cbn [length].
        split; [lia|]. apply Forall_app. auto.
      * cbn [record caught log diagnostics]. rewrite length_app. cbn [length].
        split; [lia | assumption].
    + rewrite (emit_undiscovered mo b e st Hst Hnin) in Hemit.
      injection Hemit as <-. cbn [length]. split; [lia | assumption].
  - apply ctor_inspecting.
  - rewrite ctor_log, ctor_diagnostics. split; [reflexivity | constructor].
  - exists st. auto.
Qed.

(** X4.  The log only ever holds signals the constructor discovered: the
    signal stored in a record is the method at the index of a discovered
    signal, never a method of another kind and never the invalid method of
    an index out of range. *)
Theorem only_discovered_signals_are_logged
    (mo : QMetaObject) (b : bool) (es : list Emission) :
  exists st,
    run mo es (QSignalInspector_ctor mo b) = Returned st /\
    Forall (λ ev, exists k, k ∈ discovered mo b /\ signal ev = method mo k /\
                            methodType (signal ev) = Signal) (log st).
Proof.
  destruct (run_invariant mo b
              (λ _ st,
                 Forall (λ ev, exists k, k ∈ discovered mo b /\
                                         signal ev = method mo k /\
                                         methodType (signal ev) = Signal)
                        (log st)))
    with (es := es) (done := @nil Emission) (st := QSignalInspector_ctor mo b)
    as (st & Hrun & _ & Hinv).
  - intros done e st st' Hst Hlog Hemit.
    destruct (decide (emittedSignal e ∈ discovered mo b)) as [Hin|Hnin].
    + destruct (emit_delivered mo b e st Hst Hin)
        as [Hwarn | (k & args & rest & Hk & _ & _ & Hrec)];
        [rewrite Hwarn in Hemit | rewrite Hrec in Hemit];
        injection Hemit as <-; [exact Hlog|].
      cbn [record caught log]. apply Forall_app. split; [exact Hlog|].
      apply Forall_singleton. exists k. cbn [signal].
      split; [assumption|]. split; [reflexivity|].
      eapply discovered_is_signal. eassumption.
    + rewrite (emit_undiscovered mo b e st Hst Hnin) in Hemit.
      injection Hemit as <-. exact Hlog.
  - apply ctor_inspecting.
  - rewrite ctor_log. constructor.
  - exists st. auto.
Qed.

(** ** The table keeps its keys *)

Lemma signalEmitted_shape sender now st st' :
  signalEmitted sender now st = Returned st' ->
  connections st' = connections st /\
  dom (m_signalSpies st') = dom (m_signalSpies st).
Proof.
  destruct sender as [mo|]; [|cbn; destruct QT_NO_DEBUG; discriminate].
  intros Hret.
  destruct (signalEmitted_handled mo now st)
    as [k _ Hsig Hnone Hq | k args rest _ Hsig Hspy Hq | Hno | j Hj Hall];
    [| |discriminate..]; injection Hret as <-.
  - auto.
  - split; [reflexivity|]. cbn [record m_signalSpies].
    apply dom_insert_lookup_L. rewrite Hspy. eauto.
Qed.

Lemma activate_shape mo args now rs : forall st st',
  activate mo args now rs st = Returned st' ->
  connections st' = connections st /\
  dom (m_signalSpies st') = dom (m_signalSpies st).
Proof.
  induction rs as [|[key|] rs IH]; intros st st' Hret; cbn [activate] in Hret.
  - injection Hret as <-. auto.
  - apply IH in Hret as [-> ->]. split; [reflexivity|].
    cbn [caught m_signalSpies]. apply dom_alter_L.
  - destruct (signalEmitted (Some mo) now st) as [st1|] eqn:Hslot; [|discriminate].
    apply IH in Hret as [-> ->]. eapply signalEmitted_shape. eassumption.
Qed.

(** X5.  Nothing that happens after construction adds a spy to the table,
    removes one, or touches the connections: whatever state the inspector is
    in, an invocation of the slot that returns, and any sequence of
    emissions, leave the keys of [m_signalSpies] and the connections as
    they were. *)
Theorem table_keys_are_fixed :
  (forall sender now st st',
     signalEmitted sender now st = Returned st' ->
     connections st' = connections st /\
     dom (m_signalSpies st') = dom (m_signalSpies st)) /\
  (forall mo es st st',
     run mo es st = Returned st' ->
     connections st' = connections st /\
     dom (m_signalSpies st') = dom (m_signalSpies st)).
Proof.
  split; [exact signalEmitted_shape|].
  intros mo es. induction es as [|e es IH]; intros st st' Hret; cbn [run] in Hret.
  - injection Hret as <-. auto.
  - destruct (emit mo e st) as [st1|] eqn:Hemit; [|discriminate].
    apply IH in Hret as [-> ->]. eapply activate_shape. exact Hemit.
Qed.

(** ** When the flag matters *)

Lemma discovered_without_inherited_signals mo :
  (forall i, i < methodOffset mo -> methodType (method mo i) <> Signal) ->
  discovered mo false = discovered mo true.
Proof.
  intros Hnone. unfold discovered, firstIndex, signalsFrom.
  rewrite Nat.sub_0_r.
  replace (methodCount mo)
    with (methodOffset mo + (methodCount mo - methodOffset mo)) at 2
    by (pose proof (methodOffset_le mo); lia).
  rewrite seq_app, filter_app. cbn [Nat.add].
  rewrite (elem_of_nil_inv (filter _ (seq 0 (methodOffset mo)))); [reflexivity|].
  intros k [Hsig Hk%elem_of_seq]%list_elem_of_filter.
  apply (Hnone k); [lia | assumption].
Qed.

(** X6.  The flag [includeParentClassSignals] makes a difference exactly
    when an ancestor of the class declares a signal: the constructor builds
    the same inspector for [false] and for [true] if and only if no method
    below [methodOffset()] is a signal. *)
Theorem flag_matters_iff_inherited_signal (mo : QMetaObject) :
  QSignalInspector_ctor mo false = QSignalInspector_ctor mo true <->
  (forall i, i < methodOffset mo -> methodType (method mo i) <> Signal).
Proof.
  split.
  - intros Heq i Hi Hsig.
    pose proof (ctor_spies mo true i) as Htrue.
    pose proof (ctor_spies mo false i) as Hfalse.
    rewrite decide_True in Htrue
      by (apply elem_of_signalsFrom; unfold firstIndex;
          pose proof (methodOffset_le mo); split; [lia | assumption]).
    rewrite decide_False in Hfalse
      by (unfold discovered; rewrite elem_of_signalsFrom; unfold firstIndex; lia).
    rewrite Heq in Hfalse. congruence.
  - intros Hnone.
    rewrite !ctor_foldl, (discovered_without_inherited_signals mo Hnone).
    reflexivity.
Qed.

(** ** Emissions the inspector does not see *)

(** X7.  In every state the inspector can reach, the emission of anything
    but a discovered signal changes nothing at all: no record, no warning,
    no spy touched.  With [includeParentClassSignals = false] this is the
    case of every signal declared by an ancestor. *)
Theorem undiscovered_emission_leaves_no_trace
    (mo : QMetaObject) (b : bool) (es : list Emission) (st : State)
    (e : Emission) :
  run mo es (QSignalInspector_ctor mo b) = Returned st ->
  ~ (firstIndex mo b <= emittedSignal e < methodCount mo /\
     methodType (method mo (emittedSignal e)) = Signal) ->
  emit mo e st = Returned st.
Proof.
  intros Hrun Hnot.
  destruct (run_invariant mo b (λ _ _, True) ltac:(auto) es []
              (QSignalInspector_ctor mo b) (ctor_inspecting mo b) I)
    as (st' & Hrun' & Hst & _).
  rewrite Hrun in Hrun'. injection Hrun' as <-.
  apply (emit_undiscovered mo b e st Hst).
  unfold discovered. rewrite elem_of_signalsFrom. exact Hnot.
Qed.

(** ** Spies that are never cleared *)

Lemma argumentsOf_snoc k done e :
  argumentsOf k (done ++ [e]) =
  argumentsOf k done ++ (if decide (emittedSignal e = k) then [arguments e] else []).
Proof.
  unfold argumentsOf. rewrite filter_app, fmap_app, filter_cons, filter_nil.
  destruct (decide (emittedSignal e = k)); reflexivity.
Qed.

(** When an ancestor declares a signal and the inspector was constructed
    with [includeParentClassSignals = false], the spies are never cleared:
    after any sequence of deliveries the spy of each discovered signal holds
    the arguments of every delivery to its index, in order, one warning has
    been printed for each of them, and the log is empty. *)
Theorem spies_pile_up_without_parents (mo : QMetaObject) (es : list Emission) :
  (exists i, i < methodOffset mo /\ methodType (method mo i) = Signal) ->
  exists st,
    run mo es (QSignalInspector_ctor mo false) = Returned st /\
    (forall k, k ∈ discovered mo false ->
               m_signalSpies st !! k = Some (argumentsOf k es)) /\
    diagnostics st = replicate (length (delivered mo false es)) unexpectedSignal /\
    log st = [].
Proof.
  intros Hparent.
  destruct (run_invariant mo false
              (λ done st,
                 (forall k, k ∈ discovered mo false ->
                            m_signalSpies st !! k = Some (argumentsOf k done)) /\
                 diagnostics st
                   = replicate (length (delivered mo false done)) unexpectedSignal /\
                 log st = []))
    with (es := es) (done := @nil Emission) (st := QSignalInspector_ctor mo false)
    as (st & Hrun & _ & Hinv).
  - intros done e st st' Hst (Hspies & Hdiag & Hlog) Hemit.
    rewrite delivered_snoc.
    destruct (decide (emittedSignal e ∈ discovered mo false)) as [Hin|Hnin].
    + rewrite (emit_discovered mo false e st Hst Hin) in Hemit.
      destruct (own_only_blocked mo (emittedAt e)
                  (caught (emittedSignal e) (arguments e) st) Hparent
                  (caught_inspecting mo false _ _ st Hst))
        as (_ & _ & _ & _ & _ & Hwarn).
      rewrite Hwarn in Hemit. injection Hemit as <-.
      cbn [warn log diagnostics m_signalSpies].
      split; [|split; [|exact Hlog]].
      * intros k Hk. rewrite caught_lookup, argumentsOf_snoc.
        destruct (decide (emittedSignal e = k)) as [->|Hne].
        -- rewrite (Hspies k Hk). reflexivity.
        -- rewrite app_nil_r. apply Hspies, Hk.
      * cbn [caught diagnostics]. rewrite Hdiag, length_app. cbn [length].
        rewrite Nat.add_1_r, replicate_S_end. reflexivity.
    + rewrite (emit_undiscovered mo false e st Hst Hnin) in Hemit.
      injection Hemit as <-. rewrite app_nil_r.
      split; [|auto]. intros k Hk. rewrite argumentsOf_snoc.
      rewrite decide_False by (intros <-; contradiction).
      rewrite app_nil_r. apply Hspies, Hk.
  - apply ctor_inspecting.
  - split; [|split; [apply ctor_diagnostics | apply ctor_log]].
    intros k Hk. rewrite ctor_spies, decide_True by assumption. reflexivity.
  - exists st. auto.
Qed.

(** ** The slot does not know which signal was emitted *)

(** X9.  The slot attributes an emission to the first signal whose spy is
    not empty, whichever signal was emitted.  If the spy of a signal [i]
    still holds an argument list when a signal [k] with a larger index is
    emitted, the record appended is one of signal [i] with the oldest
    arguments of [i], stamped with the time of the emission of [k]; the
    arguments of [k] stay in its spy. *)
Theorem pending_lower_signal_is_recorded_instead
    (mo : QMetaObject) (b : bool) (st : State) (i k : nat)
    (stale : list QVariant) (rest : list (list QVariant))
    (args : list QVariant) (now : QDateTime) :
  inspecting mo b st ->
  k ∈ discovered mo b ->
  methodType (method mo i) = Signal ->
  i < k ->
  m_signalSpies st !! i = Some (stale :: rest) ->
  quiet mo (m_signalSpies st) 0 i ->
  exists st',
    emit mo {| emittedSignal := k; arguments := args; emittedAt := now |} st
      = Returned st' /\
    log st' = log st ++
      [{| signal := method mo i; timestamp := now; parameters := stale |}] /\
    m_signalSpies st' !! i = Some [] /\
    (exists before, m_signalSpies st !! k = Some before /\
                    m_signalSpies st' !! k = Some (before ++ [args])).
Proof.
  intros Hst Hk Hsig Hik Hspy Hq.
  rewrite (emit_discovered mo b
             {| emittedSignal := k; arguments := args; emittedAt := now |}
             st Hst Hk).
  cbn [emittedSignal arguments emittedAt].
  rewrite (signalEmitted_records mo now _ i stale rest).
  - eexists. split; [reflexivity|]. cbn [record caught log m_signalSpies].
    split; [reflexivity|]. split; [apply lookup_insert_eq|].
    destruct (proj2 (proj1 Hst k) Hk) as [before Hbefore].
    exists before. split; [assumption|].
    rewrite lookup_insert_ne, lookup_alter_eq, Hbefore by lia. reflexivity.
  - assumption.
  - rewrite caught_lookup, decide_False by lia. assumption.
  - intros j Hj Hjsig. rewrite caught_lookup, decide_False by lia.
    apply Hq; assumption.
Qed.

(** ** The table after a run *)

(** X10.  When every signal of the object is discovered (constructed with
    the signals of the parent classes, or the parent classes declare none),
    every emission is consumed by the invocation of the slot it causes:
    after any sequence of emissions every spy is empty again and the whole
    table is as the constructor left it. *)
Theorem table_is_restored_after_every_emission
    (mo : QMetaObject) (b : bool) (es : list Emission) :
  (b = false ->
   forall i, i < methodOffset mo -> methodType (method mo i) <> Signal) ->
  exists st,
    run mo es (QSignalInspector_ctor mo b) = Returned st /\
    m_signalSpies st = m_signalSpies (QSignalInspector_ctor mo b) /\
    connections st = connections (QSignalInspector_ctor mo b) /\
    diagnostics st = [].
Proof.
  intros Hb.
  assert (Hcover : forall k, methodType (method mo k) = Signal ->
                             k ∈ discovered mo b).
  { intros k Hk. apply elem_of_signalsFrom. unfold firstIndex.
    pose proof (signal_in_range mo k Hk).
    split; [|assumption]. destruct b; [lia|].
    destruct (decide (k < methodOffset mo)) as [Hlt|]; [|lia].
    destruct (Hb eq_refl k Hlt Hk). }
  destruct (run_invariant mo b
              (λ _ st,
                 m_signalSpies st = m_signalSpies (QSignalInspector_ctor mo b) /\
                 connections st = connections (QSignalInspector_ctor mo b) /\
                 diagnostics st = []))
    with (es := es) (done := @nil Emission) (st := QSignalInspector_ctor mo b)
    as (st & Hrun & _ & Hinv).
  - intros done e st st' Hst (Hspies & Hconn & Hdiag) Hemit.
    destruct (decide (emittedSignal e ∈ discovered mo b)) as [Hin|Hnin].
    + destruct (emit_records mo b e st Hcover Hst)
        as (st1 & Hemit1 & _ & Hspies1 & Hconn1 & Hdiag1).
      * intros k spy. rewrite Hspies. apply ctor_idle.
      * eapply discovered_is_signal. eassumption.
      * rewrite Hemit1 in Hemit. injection Hemit as <-.
        rewrite Hspies1, Hconn1, Hdiag1. auto.
    + rewrite (emit_undiscovered mo b e st Hst Hnin) in Hemit.
      injection Hemit as <-. auto.
  - apply ctor_inspecting.
  - split; [reflexivity|]. split; [reflexivity | apply ctor_diagnostics].
  - exists st. auto.
Qed.

(** ** A class without signals of its own *)

Lemma own_method_in_range mo k :
  methodOffset mo <= k < methodCount mo -> method mo k ∈ ownMethods mo.
Proof.
  intros Hk. unfold method. rewrite allMethods_split.
  rewrite methodCount_split in Hk. unfold methodOffset in Hk.
  rewrite lookup_app_r by lia.
  destruct (lookup_lt_is_Some_2 (ownMethods mo) (k - length (inheritedMethods mo)))
    as [m Hm]; [lia|].
  rewrite Hm. cbn [default]. eapply list_elem_of_lookup_2. eassumption.
Qed.

(** X11.  If the class itself declares no signal, the inspector constructed
    with [includeParentClassSignals = false] observes nothing: it has no spy
    and no connection, and whatever the object emits, its state stays the
    empty one, without a record and without a warning. *)
Theorem class_without_signals_is_not_observed
    (mo : QMetaObject) (es : list Emission) :
  (forall m, m ∈ ownMethods mo -> methodType m <> Signal) ->
  QSignalInspector_ctor mo false = newInspector /\
  run mo es (QSignalInspector_ctor mo false) = Returned newInspector.
Proof.
  intros Hnone.
  assert (Hempty : discovered mo false = []).
  { apply elem_of_nil_inv. intros k [Hk Hsig]%elem_of_signalsFrom.
    apply (Hnone (method mo k)); [|assumption].
    apply own_method_in_range. exact Hk. }
  assert (Hctor : QSignalInspector_ctor mo false = newInspector)
    by (rewrite ctor_foldl, Hempty; reflexivity).
  split; [exact Hctor|].
  destruct (run_invariant mo false (λ _ st, st = newInspector))
    with (es := es) (done := @nil Emission) (st := QSignalInspector_ctor mo false)
    as (st & Hrun & _ & ->).
  - intros done e st st' Hst -> Hemit.
    rewrite (emit_undiscovered mo false e _ Hst) in Hemit
      by (rewrite Hempty; apply not_elem_of_nil).
    congruence.
  - apply ctor_inspecting.
  - exact Hctor.
  - exact Hrun.
Qed.

(** ** Time stamps of deliveries *)

(** The time stamps in the log are the times read in the deliveries, in the
    order of the deliveries: whatever the flag, the list of the time stamps
    of the records is a sublist of the list of these times. *)
Theorem timestamps_follow_the_emissions
    (mo : QMetaObject) (b : bool) (es : list Emission) :
  exists st,
    run mo es (QSignalInspector_ctor mo b) = Returned st /\
    (timestamp <$> log st) `sublist_of` (emittedAt <$> es).
Proof.
  destruct (run_invariant mo b
              (λ done st, (timestamp <$> log st) `sublist_of` (emittedAt <$> done)))
    with (es := es) (done := @nil Emission) (st := QSignalInspector_ctor mo b)
    as (st & Hrun & _ & Hinv).
  - intros done e st st' Hst Hsub Hemit. rewrite fmap_app.
    destruct (decide (emittedSignal e ∈ discovered mo b)) as [Hin|Hnin].
    + destruct (emit_delivered mo b e st Hst Hin)
        as [Hwarn | (k & args & rest & _ & _ & _ & Hrec)];
        [rewrite Hwarn in Hemit | rewrite Hrec in Hemit];
        injection Hemit as <-.
      * cbn [warn caught log]. apply sublist_inserts_r, Hsub.
      * cbn [record caught log]. rewrite fmap_app.
        apply sublist_app; [exact Hsub | reflexivity].
    + rewrite (emit_undiscovered mo b e st Hst Hnin) in Hemit.
      injection Hemit as <-. apply sublist_inserts_r, Hsub.
  - apply ctor_inspecting.
  - rewrite ctor_log. reflexivity.
  - exists st. auto.
Qed.

(** * Signals with default arguments *)

(** ** An emission, method by method *)

Lemma run_app mo es1 : forall es2 st,
  run mo (es1 ++ es2) st =
  match run mo es1 st with
  | Returned st' => run mo es2 st'
  | Aborted fault => Aborted fault
  end.
Proof.
  induction es1 as [|e es1 IH]; intros es2 st; cbn [app run]; [reflexivity|].
  destruct (emit mo e st) as [st1|fault]; [apply IH | reflexivity].
Qed.

Lemma run_inspecting mo b es st st' :
  inspecting mo b st -> run mo es st = Returned st' -> inspecting mo b st'.
Proof.
  intros Hst Hrun.
  destruct (run_invariant mo b (λ _ _, True) ltac:(auto) es [] st Hst I)
    as (st1 & Hrun1 & Hst1 & _).
  congruence.
Qed.

Lemma reached_wiring mo s ks :
  reached mo s (ks ≫= wiring) =
  filter (λ k, originalClone mo k = s) ks
    ≫= (λ k, [SpyReceiver k; SignalEmittedSlot]).
Proof.
  unfold reached.
  induction ks as [|k ks IH]; [reflexivity|].
  rewrite bind_cons, filter_app, fmap_app, IH, (filter_cons _ k ks).
  unfold wiring. rewrite !filter_cons, filter_nil. cbn [fst].
  destruct (decide (originalClone mo k = s)); [rewrite bind_cons|]; reflexivity.
Qed.

Lemma activateWithClones_per_method mo b args clock ks : forall calls st,
  inspecting mo b st -> Forall (λ k, k ∈ discovered mo b) ks ->
  activateWithClones mo args clock calls
    (ks ≫= (λ k, [SpyReceiver k; SignalEmittedSlot])) st =
  run mo (imap (λ j k, {| emittedSignal := k;
                          arguments := spyArguments mo k args;
                          emittedAt := clock (calls + j) |}) ks) st.
Proof.
  induction ks as [|k ks IH]; intros calls st Hst Hks; [reflexivity|].
  apply Forall_cons in Hks as [Hk Hks].
  rewrite bind_cons, imap_cons. cbn [app activateWithClones run].
  rewrite Nat.add_0_r.
  set (e := {| emittedSignal := k; arguments := spyArguments mo k args;
               emittedAt := clock calls |}).
  destruct (emit_inspecting mo b e st Hst) as (st1 & Hemit & Hst1).
  rewrite Hemit. rewrite (emit_discovered mo b e st Hst Hk) in Hemit.
  cbn [e emittedSignal arguments emittedAt] in Hemit. rewrite Hemit.
  rewrite (IH (S calls) st1 Hst1 Hks). f_equal.
  apply imap_ext. intros j k' _. cbn. rewrite Nat.add_succ_r. reflexivity.
Qed.

Lemma family_discovered mo b s : Forall (λ k, k ∈ discovered mo b) (family mo b s).
Proof.
  apply Forall_forall. intros k Hk. apply list_elem_of_filter in Hk. tauto.
Qed.

Lemma emitWithClones_per_method mo b f st :
  inspecting mo b st ->
  emitWithClones mo f st = run mo (perMethod mo b f) st.
Proof.
  intros Hst. unfold emitWithClones, perMethod.
  rewrite (proj2 Hst), reached_wiring.
  apply (activateWithClones_per_method mo b _ _ _ 0 st Hst), family_discovered.
Qed.

Lemma runWithClones_per_method mo b fs : forall st,
  inspecting mo b st ->
  runWithClones mo fs st = run mo (fs ≫= perMethod mo b) st.
Proof.
  induction fs as [|f fs IH]; intros st Hst; [reflexivity|].
  rewrite bind_cons, run_app. cbn [runWithClones].
  rewrite (emitWithClones_per_method mo b f st Hst).
  destruct (run mo (perMethod mo b f) st) as [st1|fault] eqn:Hrun; [|reflexivity].
  apply IH. eapply run_inspecting; eassumption.
Qed.

Lemma perMethod_discovered mo b fs :
  Forall (λ e, emittedSignal e ∈ discovered mo b) (fs ≫= perMethod mo b).
Proof.
  apply Forall_forall. intros e (f & He & _)%list_elem_of_bind.
  unfold perMethod in He. apply elem_of_lookup_imap in He as (j & k & -> & Hk).
  cbn [emittedSignal]. apply list_elem_of_lookup_2 in Hk.
  apply list_elem_of_filter in Hk. tauto.
Qed.

Lemma perMethod_without_clones mo b f :
  withoutClones mo b f ->
  perMethod mo b f =
  [ {| emittedSignal := firedSignal f; arguments := firedArguments f;
       emittedAt := readings f 0 |} ].
Proof.
  intros [Hfamily Hlen]. unfold perMethod, spyArguments. rewrite Hfamily.
  cbn [imap]. rewrite take_ge by lia. reflexivity.
Qed.

(** X13.  What Qt does with one emission is, for an inspector in any state
    it can be in, what the delivery to one method index after the other
    does: for each discovered method that is the emitted signal or one of
    its clones, in the order of the indices, the spy of that method catches
    its share of the arguments and the slot runs once.  For a signal without
    clones this is the one delivery to its own index. *)
Theorem emission_is_delivered_per_method
    (mo : QMetaObject) (b : bool) (fs : list Firing) :
  runWithClones mo fs (QSignalInspector_ctor mo b)
    = run mo (fs ≫= perMethod mo b) (QSignalInspector_ctor mo b) /\
  (Forall (withoutClones mo b) fs ->
   fs ≫= perMethod mo b =
   (λ f, {| emittedSignal := firedSignal f; arguments := firedArguments f;
            emittedAt := readings f 0 |}) <$> fs).
Proof.
  split; [apply runWithClones_per_method, ctor_inspecting|].
  induction 1 as [|f fs Hf _ IH]; [reflexivity|].
  rewrite bind_cons, IH, (perMethod_without_clones mo b f Hf). reflexivity.
Qed.

(** ** Counting, method by method *)

Lemma filter_all {A} (P : A -> Prop) `{!forall x, Decision (P x)} (l : list A) :
  Forall P l -> filter P l = l.
Proof.
  induction 1 as [|x l Hx _ IH]; [reflexivity|].
  rewrite filter_cons_True by assumption. f_equal. exact IH.
Qed.

Lemma perMethod_length mo b fs :
  length (fs ≫= perMethod mo b) = slotCalls mo b fs.
Proof.
  induction fs as [|f fs IH]; [reflexivity|].
  rewrite bind_cons, length_app, IH. unfold perMethod.
  rewrite length_imap. reflexivity.
Qed.

Lemma perMethod_delivered mo b fs :
  delivered mo b (fs ≫= perMethod mo b) = fs ≫= perMethod mo b.
Proof. apply (filter_all _ _ (perMethod_discovered mo b fs)). Qed.

Lemma perMethod_signals mo b fs :
  Forall (λ e, methodType (method mo (emittedSignal e)) = Signal)
         (fs ≫= perMethod mo b).
Proof.
  eapply Forall_impl; [apply perMethod_discovered|].
  intros e He. eapply discovered_is_signal. exact He.
Qed.

Lemma argumentsOf_app k es1 es2 :
  argumentsOf k (es1 ++ es2) = argumentsOf k es1 ++ argumentsOf k es2.
Proof. unfold argumentsOf. rewrite filter_app, fmap_app. reflexivity. Qed.

Lemma argumentsOf_imap k (share : nat -> list QVariant) ks :
  NoDup ks -> forall clock : nat -> QDateTime,
  argumentsOf k
    (imap (λ j k', {| emittedSignal := k'; arguments := share k';
                      emittedAt := clock j |}) ks)
  = if decide (k ∈ ks) then [share k] else [].
Proof.
  unfold argumentsOf.
  induction 1 as [|k' ks Hnin _ IH]; intros clock.
  - rewrite decide_False by apply not_elem_of_nil. reflexivity.
  - rewrite imap_cons, filter_cons. cbn [emittedSignal].
    specialize (IH (λ j, clock (S j))). unfold compose.
    destruct (decide (k' = k)) as [->|Hne].
    + rewrite fmap_cons, IH. cbn [arguments].
      rewrite decide_False by assumption.
      rewrite decide_True by left. reflexivity.
    + rewrite IH.
      destruct (decide (k ∈ ks)) as [Hin|Hnin'].
      * rewrite decide_True by (right; assumption). reflexivity.
      * rewrite decide_False
          by (rewrite elem_of_cons; intros [?|?]; congruence).
        reflexivity.
Qed.

Lemma argumentsOf_perMethod mo b k fs :
  k ∈ discovered mo b ->
  argumentsOf k (fs ≫= perMethod mo b) = caughtBy mo k fs.
Proof.
  intros Hk. unfold caughtBy.
  induction fs as [|f fs IH]; [reflexivity|].
  rewrite bind_cons, argumentsOf_app, IH, (filter_cons _ f fs).
  unfold perMethod.
  rewrite (argumentsOf_imap k (λ k', spyArguments mo k' (firedArguments f)))
    by apply NoDup_filter, NoDup_signalsFrom.
  destruct (decide (firedSignal f = originalClone mo k)) as [Heq|Hne].
  - rewrite decide_True
      by (apply list_elem_of_filter; split; [congruence | assumption]).
    reflexivity.
  - rewrite decide_False
      by (intros [? _]%list_elem_of_filter; congruence).
    reflexivity.
Qed.

Lemma emittedAt_perMethod mo b fs :
  emittedAt <$> (fs ≫= perMethod mo b) = clockReadings mo b fs.
Proof.
  unfold clockReadings.
  induction fs as [|f fs IH]; [reflexivity|].
  rewrite !bind_cons, fmap_app, IH. f_equal.
  unfold perMethod. rewrite fmap_imap, <- imap_seq_0.
  apply imap_ext. reflexivity.
Qed.

(** ** The properties of a run, for signals with default arguments *)

(** X1.  When every signal of the object is discovered (constructed with
    the signals of the parent classes, or the parent classes declare none),
    every emission is recorded once for each method of the emitted signal's
    family, the signal itself and then its clones, each record with the
    arguments the spy of that method stores; nothing is reported.  If no
    emitted signal has a clone, [k] emissions leave exactly [k] records, in
    the order of the emissions and with their arguments. *)
Theorem every_emission_is_recorded_per_method
    (mo : QMetaObject) (b : bool) (fs : list Firing) :
  (b = false ->
   forall i, i < methodOffset mo -> methodType (method mo i) <> Signal) ->
  exists st,
    runWithClones mo fs (QSignalInspector_ctor mo b) = Returned st /\
    log st = eventOf mo <$> (fs ≫= perMethod mo b) /\
    length (log st) = slotCalls mo b fs /\
    diagnostics st = [] /\
    (Forall (withoutClones mo b) fs -> log st = eventOfFiring mo <$> fs).
Proof.
  intros Hb.
  destruct (emissions_recorded mo b (fs ≫= perMethod mo b) Hb
              (perMethod_signals mo b fs)) as (st & Hrun & Hlog & Hdiag).
  exists st. rewrite (runWithClones_per_method mo b fs _ (ctor_inspecting mo b)).
  split; [assumption|]. split; [assumption|].
  split; [rewrite Hlog, length_fmap; apply perMethod_length|].
  split; [assumption|].
  intros Hplain. rewrite Hlog. clear Hrun Hlog.
  induction Hplain as [|f fs Hf _ IH]; [reflexivity|].
  rewrite bind_cons, fmap_app, IH, (perMethod_without_clones mo b f Hf).
  reflexivity.
Qed.

(** X3.  Whatever the flag, every invocation of the slot that an emission
    causes ends with exactly one of the two, a record appended or the
    warning printed: the records and the warnings together are as many as
    the discovered methods of the families of the emitted signals, and
    nothing but that warning is ever printed. *)
Theorem one_record_or_warning_per_slot_call
    (mo : QMetaObject) (b : bool) (fs : list Firing) :
  exists st,
    runWithClones mo fs (QSignalInspector_ctor mo b) = Returned st /\
    length (log st) + length (diagnostics st) = slotCalls mo b fs /\
    Forall (eq unexpectedSignal) (diagnostics st).
Proof.
  destruct (one_record_or_warning_per_delivery mo b (fs ≫= perMethod mo b))
    as (st & Hrun & Hcount & Hdiag).
  exists st. rewrite (runWithClones_per_method mo b fs _ (ctor_inspecting mo b)).
  rewrite perMethod_delivered, perMethod_length in Hcount. auto.
Qed.

(** X8.  When an ancestor declares a signal and the inspector was
    constructed with [includeParentClassSignals = false], the spies are
    never cleared: after any sequence of emissions the spy of each
    discovered method holds its share of the arguments of every emission of
    the signal that the method is, or is a clone of, in order; one warning
    has been printed for each invocation of the slot, and the log is
    empty. *)
Theorem uncleared_spies_hold_every_emission
    (mo : QMetaObject) (fs : list Firing) :
  (exists i, i < methodOffset mo /\ methodType (method mo i) = Signal) ->
  exists st,
    runWithClones mo fs (QSignalInspector_ctor mo false) = Returned st /\
    (forall k, k ∈ discovered mo false ->
               m_signalSpies st !! k = Some (caughtBy mo k fs)) /\
    diagnostics st = replicate (slotCalls mo false fs) unexpectedSignal /\
    log st = [].
Proof.
  intros Hparent.
  destruct (spies_pile_up_without_parents mo (fs ≫= perMethod mo false) Hparent)
    as (st & Hrun & Hspies & Hdiag & Hlog).
  exists st. rewrite (runWithClones_per_method mo false fs _ (ctor_inspecting mo false)).
  split; [assumption|]. split; [|split; [|assumption]].
  - intros k Hk. rewrite (Hspies k Hk). f_equal.
    apply argumentsOf_perMethod, Hk.
  - rewrite Hdiag, perMethod_delivered, perMethod_length. reflexivity.
Qed.

(** X12.  The time stamps in the log are readings of the clock taken by the
    invocations of the slot, in the order of these invocations: the list of
    the time stamps of the records is a sublist of the list of these
    readings, and it is the whole list when every signal is discovered. *)
Theorem timestamps_are_clock_readings
    (mo : QMetaObject) (b : bool) (fs : list Firing) :
  exists st,
    runWithClones mo fs (QSignalInspector_ctor mo b) = Returned st /\
    (timestamp <$> log st) `sublist_of` clockReadings mo b fs /\
    ((b = false ->
      forall i, i < methodOffset mo -> methodType (method mo i) <> Signal) ->
     timestamp <$> log st = clockReadings mo b fs).
Proof.
  destruct (timestamps_follow_the_emissions mo b (fs ≫= perMethod mo b))
    as (st & Hrun & Hsub).
  exists st. rewrite (runWithClones_per_method mo b fs _ (ctor_inspecting mo b)).
  rewrite emittedAt_perMethod in Hsub.
  split; [assumption|]. split; [assumption|].
  intros Hb.
  destruct (emissions_recorded mo b (fs ≫= perMethod mo b) Hb
              (perMethod_signals mo b fs)) as (st' & Hrun' & Hlog & _).
  rewrite Hrun in Hrun'. injection Hrun' as <-.
  rewrite Hlog, <- list_fmap_compose, <- emittedAt_perMethod. reflexivity.
Qed.

(** ** The sender *)

Lemma signalEmitted_has_sender mo now st :
  signalEmitted (Some mo) now st <> Aborted AssertSender /\
  signalEmitted (Some mo) now st <> Aborted NullSender.
Proof.
  destruct (signalEmitted_handled mo now st); split; discriminate.
Qed.

Lemma activate_has_sender mo args now rs : forall st,
  activate mo args now rs st <> Aborted AssertSender /\
  activate mo args now rs st <> Aborted NullSender.
Proof.
  induction rs as [|[key|] rs IH]; intros st; cbn [activate].
  - split; discriminate.
  - apply IH.
  - pose proof (signalEmitted_has_sender mo now st) as [Hassert Hnull].
    destruct (signalEmitted (Some mo) now st) as [st1|fault]; [apply IH|].
    split; congruence.
Qed.

Lemma run_has_sender mo es : forall st,
  run mo es st <> Aborted AssertSender /\ run mo es st <> Aborted NullSender.
Proof.
  induction es as [|e es IH]; intros st; cbn [run].
  - split; discriminate.
  - pose proof (activate_has_sender mo (arguments e) (emittedAt e)
                  (receivers (emittedSignal e) (connections st)) st)
      as [Hassert Hnull].
    fold (emit mo e st) in Hassert, Hnull.
    destruct (emit mo e st) as [st1|fault]; [apply IH|].
    split; congruence.
Qed.

Lemma activateWithClones_has_sender mo args clock rs : forall calls st,
  activateWithClones mo args clock calls rs st <> Aborted AssertSender /\
  activateWithClones mo args clock calls rs st <> Aborted NullSender.
Proof.
  induction rs as [|[key|] rs IH]; intros calls st; cbn [activateWithClones].
  - split; discriminate.
  - apply IH.
  - pose proof (signalEmitted_has_sender mo (clock calls) st) as [Hassert Hnull].
    destruct (signalEmitted (Some mo) (clock calls) st) as [st1|fault];
      [apply IH|].
    split; congruence.
Qed.

Lemma runWithClones_has_sender mo fs : forall st,
  runWithClones mo fs st <> Aborted AssertSender /\
  runWithClones mo fs st <> Aborted NullSender.
Proof.
  induction fs as [|f fs IH]; intros st; cbn [runWithClones].
  - split; discriminate.
  - pose proof (activateWithClones_has_sender mo (firedArguments f) (readings f)
                  (reached mo (firedSignal f) (connections st)) 0 st)
      as [Hassert Hnull].
    fold (emitWithClones mo f st) in Hassert, Hnull.
    destruct (emitWithClones mo f st) as [st1|fault]; [apply IH|].
    split; congruence.
Qed.

End Build.

(** * The two builds *)

(** C10, as the code has it.  Invoked without a sender, the slot stops at its
    assertion in a debug build, and does nothing else; in a release build
    [Q_ASSERT_X] is empty, and the slot goes on to dereference the null
    sender.  Invoked through a connection, that is, in the course of the
    emission of a signal of the object, the slot has a sender: in either
    build it does then what it does in the other, and no emission and no
    sequence of emissions ends in the failure of the assertion or at the
    null sender. *)
Theorem slot_requires_sender :
  (forall now st, signalEmitted debugBuild None now st = Aborted AssertSender) /\
  (forall now st, signalEmitted releaseBuild None now st = Aborted NullSender) /\
  (forall mo now st,
     signalEmitted releaseBuild (Some mo) now st
       = signalEmitted debugBuild (Some mo) now st) /\
  (forall build mo e st,
     emit build mo e st <> Aborted AssertSender /\
     emit build mo e st <> Aborted NullSender) /\
  (forall build mo es st,
     run build mo es st <> Aborted AssertSender /\
     run build mo es st <> Aborted NullSender) /\
  (forall build mo fs st,
     runWithClones build mo fs st <> Aborted AssertSender /\
     runWithClones build mo fs st <> Aborted NullSender).
Proof.
  split; [reflexivity|]. split; [reflexivity|]. split; [reflexivity|].
  split; [|split].
  - intros build mo e st. apply activate_has_sender.
  - intros build mo es st. apply run_has_sender.
  - intros build mo fs st. apply runWithClones_has_sender.
Qed.

(** C10, as it is stated, fails in a release build: without a sender the
    slot does not stop at an assertion, there is none; it reaches
    [sender->metaObject()]. *)
Lemma release_build_has_no_assertion :
  signalEmitted releaseBuild None 1000%Z newInspector = Aborted NullSender /\
  signalEmitted releaseBuild None 1000%Z newInspector <> Aborted AssertSender.
Proof. split; [reflexivity | discriminate]. Qed.

(** * The theorems at work *)

Lemma ctor_observes_each_signal_once_witness :
  (m_signalSpies (QSignalInspector_ctor doorMeta false) !! openedSignal = Some [] /\
   receivers openedSignal (connections (QSignalInspector_ctor doorMeta false))
     = [SpyReceiver openedSignal; SignalEmittedSlot]) /\
  (m_signalSpies (QSignalInspector_ctor doorMeta false) !! 0 = None /\
   receivers 0 (connections (QSignalInspector_ctor doorMeta false)) = []) /\
  (m_signalSpies (QSignalInspector_ctor doorMeta true) !! 0 = Some [] /\
   receivers 0 (connections (QSignalInspector_ctor doorMeta true))
     = [SpyReceiver 0; SignalEmittedSlot]) /\
  (m_signalSpies (QSignalInspector_ctor doorMeta true) !! 3 = None /\
   receivers 3 (connections (QSignalInspector_ctor doorMeta true)) = []).
Proof.
  destruct (ctor_observes_each_signal_once doorMeta)
    as [(Hown & Hother & _) (Hall & Hnone & _)].
  split; [|split; [|split]].
  - apply Hown. vm_compute. split; [lia | reflexivity].
  - apply Hother. vm_compute. intros [? _]. lia.
  - apply Hall. right. vm_compute. split; [lia | reflexivity].
  - apply Hnone. vm_compute. intros [[_ ?]|[_ ?]]; discriminate.
Defined.

Lemma recorded_signal_is_first_pending_witness :
  (exists k, firstPending doorMeta (m_signalSpies doorOpened) = Some k /\
             signal openedEvent = method doorMeta k /\
             head <$> m_signalSpies doorOpened !! k
               = Some (Some (parameters openedEvent))) /\
  (exists args rest,
     m_signalSpies doorOpened !! openedSignal = Some (args :: rest) /\
     signalEmitted debugBuild (Some doorMeta) 1000%Z doorOpened =
     Returned (record {| signal := method doorMeta openedSignal;
                         timestamp := 1000%Z; parameters := args |}
                 openedSignal doorOpened)).
Proof.
  destruct (recorded_signal_is_first_pending debugBuild doorMeta 1000%Z doorOpened)
    as [Hrecorded Hfirst].
  split.
  - apply (Hrecorded doorOpenedRecorded openedEvent); vm_compute; reflexivity.
  - apply Hfirst; [vm_compute; reflexivity|].
    intros j Hj Hsig. unfold openedSignal in Hj.
    do 5 (destruct j as [|j];
          [first [ vm_compute; eexists; reflexivity
                 | vm_compute in Hsig; discriminate Hsig ]|]).
    lia.
Defined.

Lemma missing_spy_is_reported_and_skipped_witness :
  exists st',
    signalEmitted debugBuild (Some doorMeta) 1000%Z doorOpenedOwnOnly
      = Returned st' /\
    log st' = log doorOpenedOwnOnly /\
    m_signalSpies st' = m_signalSpies doorOpenedOwnOnly /\
    connections st' = connections doorOpenedOwnOnly /\
    diagnostics st' = diagnostics doorOpenedOwnOnly ++ [unexpectedSignal].
Proof.
  apply (missing_spy_is_reported_and_skipped debugBuild doorMeta 1000%Z
           doorOpenedOwnOnly 0).
  - vm_compute. reflexivity.
  - vm_compute. reflexivity.
  - intros j Hj. lia.
Defined.

Lemma log_is_append_only_witness :
  log (QSignalInspector_ctor doorMeta true) = [] /\
  (log (warn unexpectedSignal doorOpenedOwnOnly) = log doorOpenedOwnOnly \/
   exists ev, log (warn unexpectedSignal doorOpenedOwnOnly)
              = log doorOpenedOwnOnly ++ [ev]) /\
  log doorOpened `prefix_of`
    log doorOpenedRecorded.
Proof.
  destruct (log_is_append_only debugBuild) as (Hctor & Hslot & Hrun).
  split; [apply Hctor|]. split.
  - apply (Hslot (Some doorMeta) 1000%Z). vm_compute. reflexivity.
  - apply (Hrun doorMeta
             [ {| emittedSignal := openedSignal; arguments := [];
                  emittedAt := 1000%Z |} ]
             (QSignalInspector_ctor doorMeta true)).
    vm_compute. reflexivity.
Defined.

Lemma slot_runs_off_the_end_iff_all_quiet_witness :
  (exists st', signalEmitted debugBuild (Some doorMeta) 1000%Z doorOpened
               = Returned st') /\
  (exists st', signalEmitted debugBuild (Some doorMeta) 1000%Z
                 (QSignalInspector_ctor doorMeta false) = Returned st').
Proof.
  split.
  - apply (proj2 (proj2 (slot_runs_off_the_end_iff_all_quiet
                           debugBuild doorMeta 1000%Z doorOpened)) openedSignal).
    + vm_compute. reflexivity.
    + left. exists [[]]. split; [vm_compute; reflexivity | cbn [length]; lia].
  - apply (proj2 (proj2 (slot_runs_off_the_end_iff_all_quiet
                           debugBuild doorMeta 1000%Z
                           (QSignalInspector_ctor doorMeta false))) 0).
    + vm_compute. reflexivity.
    + right. vm_compute. reflexivity.
Defined.

(** C9, as it is stated, fails: in the inspector of a door constructed
    without the signals of the parent classes both spies report a count of
    zero, yet the slot does not read past the end; it returns with the
    warning, because the first signal of the door has no spy. *)
Lemma all_spies_idle_yet_slot_returns :
  m_signalSpies (QSignalInspector_ctor doorMeta false)
    = {[ openedSignal := []; closedSignal := [] ]} /\
  select doorMeta (m_signalSpies (QSignalInspector_ctor doorMeta false)) 0 None
    = ReturnUnexpected /\
  signalEmitted debugBuild (Some doorMeta) 1000%Z
    (QSignalInspector_ctor doorMeta false)
    = Returned (warn unexpectedSignal (QSignalInspector_ctor doorMeta false)).
Proof. repeat split; vm_compute; reflexivity. Qed.

Lemma nothing_is_recorded_without_parents_witness :
  (exists k, k < methodOffset doorMeta /\
             methodType (method doorMeta k) = Signal /\
             (forall j, j < k -> methodType (method doorMeta j) <> Signal) /\
             m_signalSpies doorOpenedOwnOnly !! k = None /\
             signalEmitted debugBuild (Some doorMeta) 1000%Z doorOpenedOwnOnly
               = Returned (warn unexpectedSignal doorOpenedOwnOnly)) /\
  (exists st, run debugBuild doorMeta doorEmissions
                (QSignalInspector_ctor doorMeta false)
              = Returned st /\ log st = []).
Proof.
  assert (Hparent : exists i, i < methodOffset doorMeta /\
                              methodType (method doorMeta i) = Signal).
  { exists 0. vm_compute. split; [lia | reflexivity]. }
  destruct (nothing_is_recorded_without_parents debugBuild doorMeta Hparent)
    as [Hslot Hrun].
  split; [|apply Hrun].
  apply Hslot. apply caught_inspecting, ctor_inspecting.
Defined.

Lemma consumed_firing_is_cleared_witness :
  exists k,
    signal openedEvent = method doorMeta k /\
    m_signalSpies doorOpenedRecorded !! k = Some [] /\
    count (m_signalSpies doorOpenedRecorded) k = 0 /\
    forall args now', exists st'',
      emit debugBuild doorMeta
        {| emittedSignal := k; arguments := args; emittedAt := now' |}
        doorOpenedRecorded
        = Returned st'' /\
      log st'' = log doorOpened ++
        [ openedEvent;
          {| signal := method doorMeta k; timestamp := now';
             parameters := args |} ].
Proof.
  apply (consumed_firing_is_cleared debugBuild doorMeta true 1000%Z doorOpened).
  - apply caught_inspecting, ctor_inspecting.
  - vm_compute. reflexivity.
  - vm_compute. reflexivity.
Defined.

Lemma records_match_their_signal_witness :
  (exists st, run debugBuild doorMeta doorEmissions
                (QSignalInspector_ctor doorMeta true)
              = Returned st /\ Forall matchesSignature (log st)) /\
  (exists k rest,
     signal openedEvent = method doorMeta k /\
     m_signalSpies doorOpened !! k = Some (parameters openedEvent :: rest)).
Proof.
  destruct (records_match_their_signal debugBuild) as [Hrun Hslot].
  split.
  - apply Hrun. repeat constructor.
  - apply (Hslot doorMeta 1000%Z doorOpened
             doorOpenedRecorded
             openedEvent).
    + vm_compute. reflexivity.
    + vm_compute. reflexivity.
Defined.

Lemma table_keys_are_fixed_witness :
  (connections doorOpenedRecorded = connections doorOpened /\
   dom (m_signalSpies doorOpenedRecorded) = dom (m_signalSpies doorOpened)) /\
  (connections (warn unexpectedSignal doorOpenedOwnOnly)
     = connections (QSignalInspector_ctor doorMeta false) /\
   dom (m_signalSpies (warn unexpectedSignal doorOpenedOwnOnly))
     = dom (m_signalSpies (QSignalInspector_ctor doorMeta false))).
Proof.
  destruct (table_keys_are_fixed debugBuild) as [Hslot Hrun].
  split.
  - apply (Hslot (Some doorMeta) 1000%Z). vm_compute. reflexivity.
  - apply (Hrun doorMeta
             [ {| emittedSignal := openedSignal; arguments := [];
                  emittedAt := 1000%Z |} ]).
    vm_compute. reflexivity.
Defined.

Lemma flag_matters_iff_inherited_signal_witness :
  QSignalInspector_ctor qobjectMeta false = QSignalInspector_ctor qobjectMeta true /\
  ~ (forall i, i < methodOffset doorMeta ->
               methodType (method doorMeta i) <> Signal).
Proof.
  split.
  - apply (proj2 (flag_matters_iff_inherited_signal qobjectMeta)).
    intros i Hi. vm_compute in Hi. lia.
  - intros Hnone.
    pose proof (proj2 (flag_matters_iff_inherited_signal doorMeta) Hnone) as Heq.
    apply (f_equal (λ st, length (connections st))) in Heq.
    vm_compute in Heq. discriminate.
Defined.

Lemma undiscovered_emission_leaves_no_trace_witness :
  emit debugBuild doorMeta
    {| emittedSignal := 2; arguments := [VQString "front"]; emittedAt := 1002%Z |}
    (warn unexpectedSignal doorOpenedOwnOnly)
  = Returned (warn unexpectedSignal doorOpenedOwnOnly).
Proof.
  apply (undiscovered_emission_leaves_no_trace debugBuild doorMeta false
           [ {| emittedSignal := openedSignal; arguments := [];
                emittedAt := 1000%Z |} ]).
  - vm_compute. reflexivity.
  - vm_compute. intros [[? _] _]. lia.
Defined.

Lemma pending_lower_signal_is_recorded_instead_witness :
  exists st',
    emit debugBuild doorMeta
      {| emittedSignal := closedSignal; arguments := [VQString "timeout"];
         emittedAt := 1001%Z |} doorOpened
      = Returned st' /\
    log st' = log doorOpened ++
      [{| signal := method doorMeta openedSignal; timestamp := 1001%Z;
          parameters := [] |}] /\
    m_signalSpies st' !! openedSignal = Some [] /\
    (exists before, m_signalSpies doorOpened !! closedSignal = Some before /\
                    m_signalSpies st' !! closedSignal
                      = Some (before ++ [[VQString "timeout"]])).
Proof.
  apply (pending_lower_signal_is_recorded_instead debugBuild doorMeta true
           doorOpened openedSignal closedSignal [] []).
  - apply caught_inspecting, ctor_inspecting.
  - apply elem_of_signalsFrom. vm_compute. split; [lia | reflexivity].
  - vm_compute. reflexivity.
  - vm_compute. lia.
  - vm_compute. reflexivity.
  - intros j Hj Hsig. unfold openedSignal in Hj.
    do 5 (destruct j as [|j];
          [first [ vm_compute; reflexivity
                 | vm_compute in Hsig; discriminate Hsig ]|]).
    lia.
Defined.

Lemma table_is_restored_after_every_emission_witness :
  exists st,
    run debugBuild doorMeta doorEmissions (QSignalInspector_ctor doorMeta true)
      = Returned st /\
    m_signalSpies st = m_signalSpies (QSignalInspector_ctor doorMeta true) /\
    connections st = connections (QSignalInspector_ctor doorMeta true) /\
    diagnostics st = [].
Proof.
  apply (table_is_restored_after_every_emission debugBuild doorMeta true
           doorEmissions).
  intros Hb. discriminate Hb.
Defined.

Lemma class_without_signals_is_not_observed_witness :
  QSignalInspector_ctor latchMeta false = newInspector /\
  run debugBuild latchMeta
    [ {| emittedSignal := 2; arguments := [VQString "latch"];
         emittedAt := 1000%Z |} ]
    (QSignalInspector_ctor latchMeta false) = Returned newInspector.
Proof.
  apply (class_without_signals_is_not_observed debugBuild latchMeta).
  intros m Hm. apply list_elem_of_singleton in Hm as ->. discriminate.
Defined.

Lemma every_emission_is_recorded_per_method_witness :
  exists st,
    runWithClones debugBuild buttonMeta buttonFirings
      (QSignalInspector_ctor buttonMeta true) = Returned st /\
    log st = eventOf buttonMeta <$> (buttonFirings ≫= perMethod buttonMeta true) /\
    length (log st) = slotCalls buttonMeta true buttonFirings /\
    diagnostics st = [] /\
    (Forall (withoutClones buttonMeta true) buttonFirings ->
     log st = eventOfFiring buttonMeta <$> buttonFirings).
Proof.
  apply (every_emission_is_recorded_per_method debugBuild buttonMeta true
           buttonFirings).
  intros Hb. discriminate Hb.
Defined.

Lemma emission_is_delivered_per_method_witness :
  [ {| firedSignal := pressedSignal; firedArguments := [];
       readings := λ j, (2000 + Z.of_nat j)%Z |} ] ≫= perMethod buttonMeta true
  = [ {| emittedSignal := pressedSignal; arguments := [];
         emittedAt := 2000%Z |} ].
Proof.
  apply (proj2 (emission_is_delivered_per_method debugBuild buttonMeta true
                  [ {| firedSignal := pressedSignal; firedArguments := [];
                       readings := λ j, (2000 + Z.of_nat j)%Z |} ])).
  repeat constructor.
Defined.

Lemma uncleared_spies_hold_every_emission_witness :
  exists st,
    runWithClones debugBuild buttonMeta buttonFirings
      (QSignalInspector_ctor buttonMeta false) = Returned st /\
    (forall k, k ∈ discovered buttonMeta false ->
               m_signalSpies st !! k = Some (caughtBy buttonMeta k buttonFirings)) /\
    diagnostics st
      = replicate (slotCalls buttonMeta false buttonFirings) unexpectedSignal /\
    log st = [].
Proof.
  apply (uncleared_spies_hold_every_emission debugBuild buttonMeta buttonFirings).
  exists 0. vm_compute. split; [lia | reflexivity].
Defined.
